(** * ShopEasy API: the product endpoints of [main.py]

    A shallow embedding of the request handlers of [main.py]
    ([test_database], [create_product], [list_products], [seed_products])
    over a model of the document store they talk to, followed by the
    properties of the filter construction, the response normalisation,
    the seeding and the error handling. *)

From Stdlib Require Import ZArith NArith Ascii String List Bool Lia.
From stdpp Require Import base tactics option list gmap strings fin_maps.

Local Open Scope N_scope.

(** ** Text *)

(** A Python [str] is a sequence of Unicode code points; slicing, length
    and pattern matching all count code points. *)
Abbreviation str := (list N).

(** An ASCII literal of the source, read as a [str]. *)
Definition py (s : string) : str := N_of_ascii <$> list_ascii_of_string s.

(** The three pictographs used by the diagnostic strings of
    [test_database]: U+2705, U+274C, and U+26A0 followed by the variation
    selector U+FE0F. *)
Definition check_mark : str := [0x2705].
Definition cross_mark : str := [0x274C].
Definition warning_sign : str := [0x26A0; 0xFE0F].

(** [s[:n]] for a non-negative literal [n]. *)
Definition slice_to (n : nat) (s : str) : str := take n s.

(** ** Values and records *)

(** [bson.ObjectId]: a 12-byte identifier, held as the number its bytes
    spell; [str(oid)] is its 24 lower-case hexadecimal digits. *)
Record ObjectId := mkObjectId { oid_value : N }.

Definition hex_digit (d : N) : N := if d <? 10 then 48 + d else 87 + d.

Definition oid_str (o : ObjectId) : str :=
  (λ i : nat, hex_digit ((oid_value o / 16 ^ N.of_nat (23 - i)) mod 16)) <$> seq 0 24.

(** The field values of a product document: the scalar types of the
    [Product] shape plus the identifier the store assigns.  A float
    literal [199.99] is kept as its decimal digits, [VFloat 19999 2]; no
    handler computes with it. *)
Inductive value :=
| VNone
| VBool (b : bool)
| VInt (n : Z)
| VFloat (digits : Z) (places : nat)
| VStr (s : str)
| VOid (o : ObjectId).

#[global] Instance ObjectId_eq_dec : EqDecision ObjectId.
Proof. solve_decision. Defined.
#[global] Instance value_eq_dec : EqDecision value.
Proof. solve_decision. Defined.

(** A document, and every Python dict keyed by field names. *)
Abbreviation record := (gmap string value).

(** ** Filter documents *)

(** The filter [list_products] builds is a dict whose entries are either
    [field: text] or ["$or": [ {field: {"$regex": p, "$options": o}}, ... ]]. *)
Inductive operand :=
| Equals (s : str)
| Regex (pattern options : str).

Inductive clause :=
| Field (o : operand)
| Or (alts : list (gmap string operand)).

Abbreviation filter_doc := (gmap string clause).

#[global] Instance operand_eq_dec : EqDecision operand.
Proof. solve_decision. Defined.

(** Python truthiness of an [Optional[str]]: [None] and the empty string
    are falsy. *)
Definition truthy (o : option str) : bool :=
  match o with
  | Some (_ :: _) => true
  | _ => false
  end.

(** Lines 73-81 of [list_products]; [if category:] and [if q:] hold for a
    string that is present and not empty. *)
Definition filter_dict (category q : option str) : filter_doc :=
  let filter_dict : filter_doc := ∅ in
  let filter_dict :=
    match category with
    | Some (c :: cs) => <["category" := Field (Equals (c :: cs))]> filter_dict
    | _ => filter_dict
    end in
  let filter_dict :=
    match q with
    | Some (c :: cs) =>
        <["$or" := Or [ {["title" := Regex (c :: cs) (py "i")]};
                        {["description" := Regex (c :: cs) (py "i")]} ]]> filter_dict
    | _ => filter_dict
    end in
  filter_dict.

(** ** Pattern matching *)

(** Modelled from the spec: the pattern engine behind ["$regex"] belongs to
    the store, which is absent from the sources; "special characters in the
    free-text input are passed through as pattern syntax".  The model covers
    the patterns made of literal characters and the wildcard [.], which
    stands for any character but a line feed; with the option [i] letters
    match without regard to case (folded on the ASCII letters).  A pattern
    holding any other metacharacter is outside the fragment
    ([supported_pattern]). *)
Inductive atom :=
| Lit (c : N)
| Dot.

Definition dot : N := 46.
Definition metachars : str := py ".\^$[]|()?*+{}".

Definition literal (p : str) : Prop := Forall (λ c, c ∉ metachars) p.
Definition supported_pattern (p : str) : Prop :=
  Forall (λ c, c = dot ∨ c ∉ metachars) p.

Definition compile (p : str) : list atom :=
  (λ c, if c =? dot then Dot else Lit c) <$> p.

Definition lower (c : N) : N :=
  if (65 <=? c) && (c <=? 90) then c + 32 else c.

Definition atom_matches (ci : bool) (a : atom) (c : N) : bool :=
  match a with
  | Dot => negb (c =? 10)
  | Lit x => if ci then lower x =? lower c else x =? c
  end.

Fixpoint match_here (ci : bool) (r : list atom) (t : str) : bool :=
  match r, t with
  | [], _ => true
  | a :: r', c :: t' => atom_matches ci a c && match_here ci r' t'
  | _ :: _, [] => false
  end.

Fixpoint search (ci : bool) (r : list atom) (t : str) : bool :=
  match_here ci r t ||
  match t with
  | [] => false
  | _ :: t' => search ci r t'
  end.

(** [{"$regex": pattern, "$options": options}] applied to a text: the
    pattern is searched for anywhere in the text. *)
Definition regex_search (pattern options text : str) : bool :=
  search (bool_decide (options = py "i")) (compile pattern) text.

(** What the specification calls "a case-insensitive substring". *)
Definition ci_substring (q t : str) : Prop :=
  ∃ pre post, lower <$> t = pre ++ (lower <$> q) ++ post.

(** ** Matching a document against a filter *)

(** Modelled from the spec: how the store reads a filter is not in the
    sources; a filter expression is "a mapping from field name (or a
    logical-OR marker) to a match condition (exact value or case-insensitive
    substring pattern)", its entries "combined with logical AND". *)
Definition operand_holds (o : operand) (x : option value) : Prop :=
  match o, x with
  | Equals s, Some (VStr t) => t = s
  | Regex p opts, Some (VStr t) => regex_search p opts t = true
  | _, _ => False
  end.

#[global] Instance operand_holds_dec o x : Decision (operand_holds o x).
Proof. destruct o, x as [[]|]; simpl; apply _. Defined.

Definition alt_holds (d : record) (alt : gmap string operand) : Prop :=
  map_Forall (λ k o, operand_holds o (d !! k)) alt.

Definition clause_holds (d : record) (k : string) (c : clause) : Prop :=
  match c with
  | Field o => operand_holds o (d !! k)
  | Or alts => Exists (alt_holds d) alts
  end.

#[global] Instance clause_holds_dec d k c : Decision (clause_holds d k c).
Proof. destruct c; simpl; apply _. Defined.

Definition matches (f : filter_doc) (d : record) : Prop :=
  map_Forall (clause_holds d) f.

#[global] Instance matches_dec f d : Decision (matches f d).
Proof. apply _. Defined.

(** The documents of a collection a filter selects, in stored order. *)
Definition find_matching (f : filter_doc) (docs : list record) : list record :=
  filter (matches f) docs.

(** The part of the filter language the model reads: plain field names
    (no operator prefix, no dotted path), patterns within the fragment
    above with no option or the option [i], and a non-empty ["$or"] list. *)
Definition field_name (k : string) : Prop :=
  match k with
  | EmptyString => False
  | String c _ => c ≠ "$"%char ∧ "."%char ∉ list_ascii_of_string k
  end.

Definition operand_supported (k : string) (o : operand) : Prop :=
  field_name k ∧
  match o with
  | Equals _ => True
  | Regex p opts => supported_pattern p ∧ (opts = [] ∨ opts = py "i")
  end.

Definition clause_supported (k : string) (c : clause) : Prop :=
  match c with
  | Field o => operand_supported k o
  | Or alts => k = "$or" ∧ alts ≠ [] ∧ Forall (map_Forall operand_supported) alts
  end.

Definition filter_supported (f : filter_doc) : Prop :=
  map_Forall clause_supported f.

#[global] Instance field_name_dec k : Decision (field_name k).
Proof. destruct k; simpl; apply _. Defined.
#[global] Instance operand_supported_dec k o : Decision (operand_supported k o).
Proof. destruct o; unfold operand_supported, supported_pattern; apply _. Defined.
#[global] Instance clause_supported_dec k c : Decision (clause_supported k c).
Proof. destruct c; simpl; apply _. Defined.
#[global] Instance filter_supported_dec f : Decision (filter_supported f).
Proof. apply _. Defined.

(** ** Effects *)

(** A handler runs against mutable state and either returns, raises, or
    leaves the part of the store's behaviour the specification fixes. *)
Inductive result (E A : Type) : Type :=
| Ok (a : A)
| Raise (e : E)
| Unspecified.
Arguments Ok {E A} a.
Arguments Raise {E A} e.
Arguments Unspecified {E A}.

Definition M (S E A : Type) : Type := S → result E A * S.

#[global] Instance M_ret {S E} : MRet (M S E) := λ A a s, (Ok a, s).

#[global] Instance M_bind {S E} : MBind (M S E) := λ A B f m s,
  match m s with
  | (Ok a, s') => f a s'
  | (Raise e, s') => (Raise e, s')
  | (Unspecified, s') => (Unspecified, s')
  end.

Definition raise {S E A} (e : E) : M S E A := λ s, (Raise e, s).
Definition unspecified {S E A} : M S E A := λ s, (Unspecified, s).
Definition get {S E} : M S E S := λ s, (Ok s, s).
Definition put {S E} (s : S) : M S E () := λ _, (Ok (), s).

(** [try: m except Exception as e: h e].  State changes made before the
    exception was raised are kept, as in Python. *)
Definition try_except {S E E' A} (m : M S E A) (h : E → M S E' A) : M S E' A := λ s,
  match m s with
  | (Ok a, s') => (Ok a, s')
  | (Raise e, s') => h e s'
  | (Unspecified, s') => (Unspecified, s')
  end.

(** [for x in xs: f x]. *)
Fixpoint for_each {S E A} (xs : list A) (f : A → M S E ()) : M S E () :=
  match xs with
  | [] => mret ()
  | x :: xs' => f x;; for_each xs' f
  end.

(** A computation on one component of the state. *)
Definition zoom {S T E A} (proj : T → S) (inj : S → T → T)
    (m : M S E A) : M T E A := λ t,
  let '(r, s') := m (proj t) in (r, inj s' t).

(** A computation with a local variable, initialised to [init]. *)
Definition with_local {S L E A} (init : L) (m : M (S * L) E A) : M S E A := λ s,
  let '(r, (s', _)) := m (s, init) in (r, s').

Definition outer {S L E A} : M S E A → M (S * L) E A :=
  zoom fst (λ s t, (s, t.2)).
Definition local {S L E A} : M L E A → M (S * L) E A :=
  zoom snd (λ l t, (t.1, l)).

(** ** Exceptions *)

(** An exception is known by its message, [str(e)]. *)
Record Exception := mkException { message : str }.

(** [fastapi.HTTPException(status_code, detail)]. *)
Record HTTPException := mkHTTPException { status_code : Z; detail : str }.

(** ** The document store *)

(** What reading an attribute of the handle does. *)
Inductive attribute (A : Type) : Type :=
| Absent
| Present (a : A)
| Failing (e : Exception).
Arguments Absent {A}.
Arguments Present {A} a.
Arguments Failing {A} e.

(** The database behind the handle [db]: its collections in insertion
    order, the next identifier it will assign, and a script of the outcomes
    of its upcoming driver calls ([Some e]: the call raises [e]; [None] or
    an exhausted script: it succeeds), which lets a run meet any failure the
    store may produce. *)
Record Database := mkDatabase {
  db_name : attribute str;
  collections : gmap string (list record);
  next_oid : N;
  faults : list (option Exception)
}.

(** The process: the global handle [db] ([None] when the store was not
    configured) and the environment variables. *)
Record world := mkWorld {
  db : option Database;
  environ : gmap string str
}.

Definition collection (name : string) (d : Database) : list record :=
  default [] (collections d !! name).

(** Every driver call first consumes one entry of the script. *)
Definition driver_call : M Database Exception () := λ d,
  match faults d with
  | [] => (Ok (), d)
  | outcome :: rest =>
      let d' := mkDatabase (db_name d) (collections d) (next_oid d) rest in
      match outcome with
      | Some e => (Raise e, d')
      | None => (Ok (), d')
      end
  end.

(** [db[name].count_documents({})]. *)
Definition count_documents (name : string) : M Database Exception Z :=
  driver_call;;
  d ← get;
  mret (Z.of_nat (length (collection name d))).

(** [db.list_collection_names()]. *)
Definition list_collection_names : M Database Exception (list string) :=
  driver_call;;
  d ← get;
  mret (map_to_list (collections d)).*1.

(** [db[name].insert_one(doc)]: the store assigns the identifier. *)
Definition insert_one (name : string) (doc : record) : M Database Exception ObjectId :=
  driver_call;;
  d ← get;
  let o := mkObjectId (next_oid d) in
  put (mkDatabase (db_name d)
         (<[name := collection name d ++ [<["_id" := VOid o]> doc]]> (collections d))
         (N.succ (next_oid d)) (faults d));;
  mret o.

(** [db[name].find(f).limit(n)]. *)
Definition find_limit (name : string) (f : filter_doc) (n : nat) :
    M Database Exception (list record) :=
  driver_call;;
  d ← get;
  mret (take n (find_matching f (collection name d))).

(** Run a driver computation against the handle. *)
Definition on_db {A} (m : M Database Exception A) : M world Exception A := λ w,
  match db w with
  | None => (Unspecified, w)
  | Some d => let '(r, d') := m d in (r, mkWorld (Some d') (environ w))
  end.

(** Modelled from the spec: [database.create_document] is absent from the
    sources; "given a collection name and a record, inserts it and returns
    a generated identifier", the identifier being the string form the
    endpoint answers with.  What it does without a handle is not said. *)
Definition create_document (collection_name : string) (data : record) :
    M world Exception str :=
  on_db (o ← insert_one collection_name data; mret (oid_str o)).

(** Modelled from the spec: [database.get_documents] is absent from the
    sources; "given a collection name and a filter, returns matching
    records", and "the limit strictly bounds the number of records
    returned".  A limit that is not positive is "implementation-defined",
    and so is a filter outside the modelled fragment. *)
Definition get_documents (collection_name : string) (f : filter_doc)
    (limit : Z) : M world Exception (list record) :=
  if decide (filter_supported f ∧ (0 < limit)%Z)
  then on_db (find_limit collection_name f (Z.to_nat limit))
  else unspecified.

(** ** Response bodies *)

(** The JSON bodies the handlers answer with: dicts whose entries are
    scalars, a list of collection names, or a list of documents. *)
Inductive item :=
| Scalar (v : value)
| Names (l : list string)
| Docs (l : list record).

Abbreviation body := (gmap string item).

Definition text (s : str) : item := Scalar (VStr s).

(** A dict display [{k1: v1, ...}]. *)
Definition dict {A} (entries : list (string * A)) : gmap string A :=
  list_to_map entries.

(** [response[k] = v] on the local variable of [test_database]. *)
Definition assign {S E} (k : string) (v : item) : M (S * body) E () :=
  local (response ← get; put (<[k := v]> response)).

(** [os.getenv(k)] used as a condition: set and not empty. *)
Definition getenv_truthy (k : string) (w : world) : bool :=
  truthy (environ w !! k).

(** ** [test_database] *)

(** [db.name if hasattr(db, 'name') else default]: [hasattr] answers
    [False] when the attribute is missing and lets any other failure of
    the lookup through. *)
Definition name_or (default : str) : M Database Exception str :=
  d ← get;
  match db_name d with
  | Absent => mret default
  | Present n => mret n
  | Failing e => raise e
  end.

Definition test_database : M world HTTPException body :=
  with_local
    (dict [ ("backend", text (check_mark ++ py " Running"));
            ("database", text (cross_mark ++ py " Not Available"));
            ("database_url", Scalar VNone);
            ("database_name", Scalar VNone);
            ("connection_status", text (py "Not Connected"));
            ("collections", Names []) ])
    (try_except
       (w ← outer get;
        match db w with
        | Some _ =>
            assign "database" (text (check_mark ++ py " Available"));;
            assign "database_url" (text (check_mark ++ py " Configured"));;
            name ← outer (on_db (name_or (check_mark ++ py " Connected")));
            assign "database_name" (text name);;
            assign "connection_status" (text (py "Connected"));;
            try_except
              (collections ← outer (on_db list_collection_names);
               assign "collections" (Names (take 10 collections));;
               assign "database" (text (check_mark ++ py " Connected & Working")))
              (λ e, assign "database"
                      (text (warning_sign ++ py "  Connected but Error: "
                             ++ slice_to 50 (message e))))
        | None =>
            assign "database" (text (warning_sign ++ py "  Available but not initialized"))
        end)
       (λ e, assign "database"
               (text (cross_mark ++ py " Error: " ++ slice_to 50 (message e))));;
     w ← outer get;
     assign "database_url"
       (text (if getenv_truthy "DATABASE_URL" w
              then check_mark ++ py " Set" else cross_mark ++ py " Not Set"));;
     assign "database_name"
       (text (if getenv_truthy "DATABASE_NAME" w
              then check_mark ++ py " Set" else cross_mark ++ py " Not Set"));;
     local get).

(** ** [create_product] *)

Definition create_product (product : record) : M world HTTPException body :=
  try_except
    (inserted_id ← create_document "product" product;
     mret (dict [ ("id", text inserted_id) ]))
    (λ e, raise (mkHTTPException 500 (message e))).

(** ** [list_products] *)

(** Lines 85-86: [if isinstance(d.get("_id"), ObjectId): d["id"] = str(d.pop("_id"))]. *)
Definition normalize (d : record) : record :=
  match d !! "_id" with
  | Some (VOid o) => <["id" := VStr (oid_str o)]> (delete "_id" d)
  | _ => d
  end.

(** Lines 84-86, on the documents as values: [get_documents] hands out a
    list of distinct dict objects, and the loop updates each of them. *)
Definition normalize_all (docs : list record) : list record :=
  normalize <$> docs.

(** Lines 84-86, as Python runs them: [docs] is a list of references to
    dict objects on a heap, the loop updates the object behind each
    reference in place, and the response reads the objects afterwards. *)
Definition normalize_in_place (docs : list nat) (heap : gmap nat record) : gmap nat record :=
  foldl (λ h ref, alter normalize ref h) heap docs.

Definition deref (heap : gmap nat record) (docs : list nat) : list record :=
  omap (λ ref, heap !! ref) docs.

Definition list_products (category q : option str) (limit : Z) :
    M world HTTPException body :=
  try_except
    (docs ← get_documents "product" (filter_dict category q) limit;
     mret (dict [ ("items", Docs (normalize_all docs)) ]))
    (λ e, raise (mkHTTPException 500 (message e))).

(** ** [seed_products] *)

Definition demo_items : list record :=
  [ dict [ ("title", VStr (py "Wireless Noise-Canceling Headphones"));
           ("description", VStr (py "Premium over-ear headphones with 30h battery and ANC."));
           ("price", VFloat 19999 2);
           ("category", VStr (py "Electronics"));
           ("in_stock", VBool true);
           ("brand", VStr (py "SoundMax"));
           ("image_url", VStr (py "https://images.unsplash.com/photo-1518443751420-7e1b34b09b91?q=80&w=1200&auto=format&fit=crop"));
           ("rating", VFloat 46 1);
           ("reviews_count", VInt 321) ];
    dict [ ("title", VStr (py "Smart Fitness Watch"));
           ("description", VStr (py "Track health metrics with AMOLED display and GPS."));
           ("price", VFloat 1290 1);
           ("category", VStr (py "Wearables"));
           ("in_stock", VBool true);
           ("brand", VStr (py "FitPulse"));
           ("image_url", VStr (py "https://images.unsplash.com/photo-1511732351157-1865efcb7b7b?q=80&w=1200&auto=format&fit=crop"));
           ("rating", VFloat 44 1);
           ("reviews_count", VInt 189) ];
    dict [ ("title", VStr (py "Ergonomic Office Chair"));
           ("description", VStr (py "Adjustable lumbar support, breathable mesh, smooth wheels."));
           ("price", VFloat 2495 1);
           ("category", VStr (py "Furniture"));
           ("in_stock", VBool true);
           ("brand", VStr (py "ErgoSeat"));
           ("image_url", VStr (py "https://images.unsplash.com/photo-1503602642458-232111445657?q=80&w=1200&auto=format&fit=crop"));
           ("rating", VFloat 45 1);
           ("reviews_count", VInt 97) ];
    dict [ ("title", VStr (py "Stainless Steel Water Bottle"));
           ("description", VStr (py "Insulated 1L bottle keeps drinks cold for 24h."));
           ("price", VFloat 2499 2);
           ("category", VStr (py "Outdoors"));
           ("in_stock", VBool true);
           ("brand", VStr (py "AquaPro"));
           ("image_url", VStr (py "https://images.unsplash.com/photo-1526405078732-81b3b1b12f39?q=80&w=1200&auto=format&fit=crop"));
           ("rating", VFloat 48 1);
           ("reviews_count", VInt 512) ] ].

Definition seed_products : M world HTTPException body :=
  try_except
    (w ← get;
     count ← match db w with
             | Some _ => on_db (count_documents "product")
             | None => mret 0%Z
             end;
     if (0 <? count)%Z
     then mret (dict [ ("seeded", Scalar (VBool false));
                       ("message", text (py "Products already exist")) ])
     else
       for_each demo_items (λ item, _ ← create_document "product" item; mret ());;
       mret (dict [ ("seeded", Scalar (VBool true));
                    ("count", Scalar (VInt (Z.of_nat (length demo_items)))) ]))
    (λ e, raise (mkHTTPException 500 (message e))).

(** * Vocabulary of the properties *)

(** The text condition of a filter: the two pattern matches of line 78-81. *)
Definition text_condition (q : str) : clause :=
  Or [ {["title" := Regex q (py "i")]}; {["description" := Regex q (py "i")]} ].

(** The field [k] of [d] is a text holding [q], letter case aside. *)
Definition field_contains (d : record) (k : string) (q : str) : Prop :=
  ∃ t, d !! k = Some (VStr t) ∧ ci_substring q t.

(** The driver call at the head of the script succeeds. *)
Definition next_call_succeeds (d : Database) : Prop :=
  ∀ e rest, faults d ≠ Some e :: rest.

(** The database once its next driver call is spent. *)
Definition after_call (d : Database) : Database :=
  mkDatabase (db_name d) (collections d) (next_oid d) (tail (faults d)).

(** The next [n] driver calls succeed. *)
Definition calls_succeed (n : nat) (d : Database) : Prop :=
  Forall (λ outcome, outcome = None) (take n (faults d)).

(** The database after a successful [insert_one name doc]. *)
Definition inserted (name : string) (doc : record) (d : Database) : Database :=
  mkDatabase (db_name d)
    (<[name := collection name d ++ [<["_id" := VOid (mkObjectId (next_oid d))]> doc]]>
       (collections d))
    (N.succ (next_oid d)) (tail (faults d)).

(** The documents as the store keeps them, identifiers counted from [first]. *)
Fixpoint stored (first : N) (items : list record) : list record :=
  match items with
  | [] => []
  | item :: items' => <["_id" := VOid (mkObjectId first)]> item :: stored (N.succ first) items'
  end.

(** The database after the loop of [seed_products] over [items]. *)
Definition insert_all (items : list record) (d : Database) : Database :=
  foldl (λ d item, inserted "product" item d) d items.

(** A store with no collection and no failure ahead, and the process
    running against a store. *)
Definition empty_store : Database := mkDatabase (Present (py "shop")) ∅ 0 [].
Definition running (d : Database) : world := mkWorld (Some d) ∅.

(** Two states of the process hold the same data: the same environment
    and, behind the handle, the same collections, next identifier and
    name; only the script of upcoming driver outcomes may differ. *)
Definition same_data (w w' : world) : Prop :=
  environ w' = environ w ∧
  match db w, db w' with
  | Some d, Some d' =>
      collections d' = collections d ∧ next_oid d' = next_oid d ∧ db_name d' = db_name d
  | None, None => True
  | _, _ => False
  end.

(** No record of the list holds a store-native identifier under ["_id"]. *)
Definition json_safe (docs : list record) : Prop :=
  Forall (λ d : record, ∀ o, d !! "_id" ≠ Some (VOid o)) docs.

(** * Properties *)

(** A closed decidable proposition, settled by running its decision
    procedure. *)
Ltac by_evaluation := apply (bool_decide_unpack _); vm_compute; exact I.

(** ** Literal patterns search for a substring *)

Lemma compile_literal (p : str) : literal p → compile p = Lit <$> p.
Proof.
  unfold literal, compile. induction 1 as [|c p Hc _ IH]; [done|].
  rewrite !fmap_cons, IH. destruct (N.eqb_spec c dot) as [->|]; [|done].
  exfalso. apply Hc. vm_compute. left.
Qed.

Lemma match_here_literal (q t : str) :
  match_here true (Lit <$> q) t = true ↔ ∃ post, lower <$> t = (lower <$> q) ++ post.
Proof.
  revert t. induction q as [|c q IH]; intros t.
  - split; [eauto|done].
  - rewrite !fmap_cons. destruct t as [|x t]; cbn [match_here atom_matches].
    + split; [done|]. by intros [post ?].
    + rewrite fmap_cons, andb_true_iff, N.eqb_eq, IH. split.
      * intros [-> [post ->]]. by exists post.
      * intros [post [= -> ->]]. eauto.
Qed.

Lemma search_literal (q t : str) :
  search true (Lit <$> q) t = true ↔ ci_substring q t.
Proof.
  unfold ci_substring. induction t as [|x t IH]; cbn [search];
    rewrite orb_true_iff, match_here_literal.
  - split.
    + intros [[post Hp]|?]; [|done]. by exists [], post.
    + intros ([|??] & post & Hp); [|done]. left. by exists post.
  - rewrite IH. split.
    + intros [[post Hp]|(pre & post & Hp)].
      * by exists [], post.
      * exists (lower x :: pre), post. by rewrite fmap_cons, Hp.
    + intros ([|y pre] & post & Hp).
      * left. by exists post.
      * right. rewrite fmap_cons in Hp. injection Hp as _ Hp. by exists pre, post.
Qed.

(** With the option [i], a pattern free of metacharacters finds exactly
    the texts that hold it as a substring, letter case aside. *)
Lemma regex_search_literal (q t : str) :
  literal q → regex_search q (py "i") t = true ↔ ci_substring q t.
Proof.
  intros Hq. unfold regex_search. rewrite compile_literal by done.
  rewrite bool_decide_eq_true_2 by done. apply search_literal.
Qed.

(** ** The filter *)

Lemma operand_holds_regex (p opts : str) (x : option value) :
  operand_holds (Regex p opts) x ↔ ∃ t, x = Some (VStr t) ∧ regex_search p opts t = true.
Proof.
  destruct x as [[]|]; simpl; split; try done; try by intros (? & ? & ?).
  - eauto.
  - by intros (? & [= ->] & ?).
Qed.

Lemma operand_holds_equals (s : str) (x : option value) :
  operand_holds (Equals s) x ↔ x = Some (VStr s).
Proof.
  destruct x as [[]|]; simpl; split; try done; congruence.
Qed.

Lemma text_condition_holds (d : record) (k : string) (q : str) :
  clause_holds d k (text_condition q) ↔
  (∃ t, d !! "title" = Some (VStr t) ∧ regex_search q (py "i") t = true) ∨
  (∃ t, d !! "description" = Some (VStr t) ∧ regex_search q (py "i") t = true).
Proof.
  unfold text_condition, clause_holds, alt_holds.
  rewrite !Exists_cons, Exists_nil, !map_Forall_singleton, !operand_holds_regex.
  tauto.
Qed.

Lemma filter_dict_both (c : N) (cs : str) (x : N) (xs : str) :
  filter_dict (Some (c :: cs)) (Some (x :: xs)) =
  <["$or" := text_condition (x :: xs)]> {["category" := Field (Equals (c :: cs))]}.
Proof. done. Qed.

Lemma matches_category (C : str) (d : record) :
  matches {["category" := Field (Equals C)]} d ↔ d !! "category" = Some (VStr C).
Proof.
  unfold matches. rewrite map_Forall_singleton. apply operand_holds_equals.
Qed.

Lemma matches_text (q : str) (d : record) :
  matches {["$or" := text_condition q]} d ↔ clause_holds d "$or" (text_condition q).
Proof. unfold matches. by rewrite map_Forall_singleton. Qed.

Lemma matches_both (C q : str) (d : record) :
  matches (<["$or" := text_condition q]> {["category" := Field (Equals C)]}) d ↔
  matches {["category" := Field (Equals C)]} d ∧ matches {["$or" := text_condition q]} d.
Proof.
  unfold matches at 1. rewrite map_Forall_insert by done.
  rewrite matches_text. fold (matches {["category" := Field (Equals C)]} d). tauto.
Qed.

(** C1, as amended.  For every non-empty query [Q] the filter holds, under
    ["$or"], exactly two pattern-match conditions with the option [i], one
    on the title and one on the description; and when [Q] has no pattern
    metacharacter, a record satisfies that condition iff [Q] is a
    case-insensitive substring of its title or of its description. *)
Theorem C1_text_condition (category : option str) (Q : str) :
  Q ≠ [] →
  filter_dict category (Some Q) !! "$or"
    = Some (Or [ {["title" := Regex Q (py "i")]};
                 {["description" := Regex Q (py "i")]} ]) ∧
  (literal Q → ∀ d : record,
     clause_holds d "$or" (text_condition Q) ↔
     field_contains d "title" Q ∨ field_contains d "description" Q).
Proof.
  intros HQ. destruct Q as [|x xs]; [done|]. split.
  - destruct category as [[|c cs]|]; by simplify_map_eq.
  - intros Hlit d. rewrite text_condition_holds. unfold field_contains.
    by setoid_rewrite (regex_search_literal (x :: xs) _ Hlit).
Qed.

(** The theorem at the query ["watch"], which holds no metacharacter. *)
Lemma C1_text_condition_witness :
  filter_dict None (Some (py "watch")) !! "$or"
    = Some (Or [ {["title" := Regex (py "watch") (py "i")]};
                 {["description" := Regex (py "watch") (py "i")]} ]) ∧
  (clause_holds (dict [ ("title", VStr (py "Smart Fitness Watch")) ]) "$or"
     (text_condition (py "watch")) ↔
   field_contains (dict [ ("title", VStr (py "Smart Fitness Watch")) ]) "title" (py "watch") ∨
   field_contains (dict [ ("title", VStr (py "Smart Fitness Watch")) ]) "description"
     (py "watch")).
Proof.
  destruct (C1_text_condition None (py "watch")) as [Hf Hm]; [discriminate|].
  split; [exact Hf|]. apply Hm. apply (bool_decide_unpack _). vm_compute. exact I.
Defined.

(** C1, as stated, fails: the query ["."] is read as a wildcard, so a
    record titled ["abc"] satisfies the text condition although ["."] is a
    substring neither of its title nor of its description. *)
Lemma C1_wildcard_counterexample :
  let Q := py "." in
  let d : record := dict [ ("title", VStr (py "abc")); ("description", VStr (py "xyz")) ] in
  Q ≠ [] ∧
  filter_supported (filter_dict None (Some Q)) ∧
  matches (filter_dict None (Some Q)) d ∧
  clause_holds d "$or" (text_condition Q) ∧
  ¬ (field_contains d "title" Q ∨ field_contains d "description" Q).
Proof.
  cbv zeta. split; [done|]. do 3 (split; [by_evaluation|]).
  intros [(t & Ht & pre & post & H)|(t & Ht & pre & post & H)];
    vm_compute in Ht; injection Ht as <-; vm_compute in H;
    apply (f_equal (λ l, bool_decide (46 ∈ l))) in H;
    (rewrite (bool_decide_eq_true_2 (46 ∈ pre ++ _)) in H by set_solver);
    vm_compute in H; discriminate.
Qed.

(** ** Running a computation *)

Section running.
Context {S E : Type}.

Lemma bind_ok {A B} (m : M S E A) (f : A → M S E B) (s s' : S) (a : A) :
  m s = (Ok a, s') → (m ≫= f) s = f a s'.
Proof. unfold mbind, M_bind. by intros ->. Qed.

Lemma bind_raise {A B} (m : M S E A) (f : A → M S E B) (s s' : S) (e : E) :
  m s = (Raise e, s') → (m ≫= f) s = (Raise e, s').
Proof. unfold mbind, M_bind. by intros ->. Qed.

Lemma bind_unspecified {A B} (m : M S E A) (f : A → M S E B) (s s' : S) :
  m s = (Unspecified, s') → (m ≫= f) s = (Unspecified, s').
Proof. unfold mbind, M_bind. by intros ->. Qed.

Lemma bind_assoc_run {A B C} (m : M S E A) (f : A → M S E B) (g : B → M S E C) (s : S) :
  ((m ≫= f) ≫= g) s = (m ≫= λ a, f a ≫= g) s.
Proof. unfold mbind, M_bind. by destruct (m s) as [[a|e|] s']. Qed.

Lemma try_ok {E' A} (m : M S E A) (h : E → M S E' A) (s s' : S) (a : A) :
  m s = (Ok a, s') → try_except m h s = (Ok a, s').
Proof. unfold try_except. by intros ->. Qed.

Lemma try_raise {E' A} (m : M S E A) (h : E → M S E' A) (s s' : S) (e : E) :
  m s = (Raise e, s') → try_except m h s = h e s'.
Proof. unfold try_except. by intros ->. Qed.

Lemma try_unspecified {E' A} (m : M S E A) (h : E → M S E' A) (s s' : S) :
  m s = (Unspecified, s') → try_except m h s = (Unspecified, s').
Proof. unfold try_except. by intros ->. Qed.

End running.

Lemma on_db_run {A} (m : M Database Exception A) (w : world) (d d' : Database)
    (r : result Exception A) :
  db w = Some d → m d = (r, d') → on_db m w = (r, mkWorld (Some d') (environ w)).
Proof. unfold on_db. by intros -> ->. Qed.

(** ** Running the store *)

Lemma driver_call_succeeds (d : Database) :
  next_call_succeeds d → driver_call d = (Ok (), after_call d).
Proof.
  unfold next_call_succeeds, driver_call, after_call. intros Hd.
  destruct d as [n cs o [|[e|] rest]]; simpl in *; [done| |done].
  by destruct (Hd e rest).
Qed.

Lemma driver_call_raises (d : Database) (e : Exception) (rest : list (option Exception)) :
  faults d = Some e :: rest → driver_call d = (Raise e, after_call d).
Proof. unfold driver_call, after_call. by intros ->. Qed.

Lemma collection_after_call (name : string) (d : Database) :
  collection name (after_call d) = collection name d.
Proof. done. Qed.

Lemma count_documents_succeeds (name : string) (d : Database) :
  next_call_succeeds d →
  count_documents name d = (Ok (Z.of_nat (length (collection name d))), after_call d).
Proof.
  intros Hd. unfold count_documents.
  by rewrite (bind_ok _ _ _ _ _ (driver_call_succeeds d Hd)).
Qed.

(** Whatever [get_documents] returns is a prefix of the documents of the
    collection that satisfy the filter. *)
Lemma get_documents_Ok (name : string) (f : filter_doc) (limit : Z)
    (w w' : world) (docs : list record) :
  get_documents name f limit w = (Ok docs, w') →
  ∃ d, db w = Some d ∧
       docs = take (Z.to_nat limit) (find_matching f (collection name d)).
Proof.
  unfold get_documents, unspecified, on_db, find_limit, driver_call.
  unfold mbind, M_bind, mret, M_ret, get.
  destruct (decide _) as [_|_]; [|done].
  destruct (db w) as [d|]; [|done]. intros H. exists d. split; [done|].
  destruct (faults d) as [|[e|] rest]; simpl in H; by simplify_eq.
Qed.

Lemma list_products_Ok (category q : option str) (limit : Z) (w w' : world) (b : body) :
  list_products category q limit w = (Ok b, w') →
  ∃ d, db w = Some d ∧
       b = dict [ ("items",
                   Docs (normalize_all
                           (take (Z.to_nat limit)
                              (find_matching (filter_dict category q)
                                 (collection "product" d))))) ].
Proof.
  unfold list_products, try_except, mbind, M_bind, mret, M_ret, raise.
  destruct (get_documents _ _ _ w) as [[docs|e|] w1] eqn:Hget; [|done..].
  intros [= <- <-]. apply get_documents_Ok in Hget as (d & Hd & ->). eauto.
Qed.

(** ** The normaliser *)

Lemma normalize_other (d : record) (k : string) :
  k ≠ "_id" → k ≠ "id" → normalize d !! k = d !! k.
Proof.
  intros H1 H2. unfold normalize.
  destruct (d !! "_id") as [[]|]; by simplify_map_eq.
Qed.

Lemma normalize_not_native (d : record) (o : ObjectId) :
  normalize d !! "_id" ≠ Some (VOid o).
Proof.
  unfold normalize. destruct (d !! "_id") as [[]|] eqn:Hid;
    simplify_map_eq; congruence.
Qed.

Lemma normalize_unchanged (d : record) :
  (∀ o, d !! "_id" ≠ Some (VOid o)) → normalize d = d.
Proof.
  unfold normalize. intros Hd. destruct (d !! "_id") as [[]|]; try done.
  by destruct (Hd o).
Qed.

Lemma normalize_twice (d : record) : normalize (normalize d) = normalize d.
Proof. apply normalize_unchanged. intros o. apply normalize_not_native. Qed.

(** Updating in place, a list in which one object may occur several times
    ends up as the list of the normalised objects. *)
Lemma normalize_in_place_lookup (docs : list nat) (heap : gmap nat record) (ref : nat) :
  normalize_in_place docs heap !! ref
  = if decide (ref ∈ docs) then normalize <$> heap !! ref else heap !! ref.
Proof.
  revert heap. induction docs as [|a docs IH]; intros heap.
  - by rewrite decide_False by set_solver.
  - cbn [normalize_in_place foldl]. fold (normalize_in_place docs (alter normalize a heap)).
    rewrite IH. destruct (decide (ref = a)) as [->|Hne].
    + rewrite lookup_alter_eq, (decide_True (P := a ∈ a :: docs)) by set_solver.
      destruct (decide (a ∈ docs)); [|done].
      destruct (heap !! a); simpl; [|done]. by rewrite normalize_twice.
    + rewrite lookup_alter_ne by done.
      destruct (decide (ref ∈ docs)).
      * by rewrite decide_True by (by apply list_elem_of_further).
      * by rewrite decide_False by (by intros [?|?]%elem_of_cons).
Qed.

Lemma normalize_in_place_all (docs : list nat) (heap : gmap nat record) :
  deref (normalize_in_place docs heap) docs = normalize_all (deref heap docs).
Proof.
  unfold deref, normalize_all.
  assert (∀ refs : list nat, refs ⊆ docs →
    omap (λ ref, normalize_in_place docs heap !! ref) refs
    = normalize <$> omap (λ ref, heap !! ref) refs) as H; [|by apply H].
  induction refs as [|a refs IH]; intros Hsub; [done|].
  cbn [omap list_omap]. fold (omap (λ ref, normalize_in_place docs heap !! ref) refs).
  fold (omap (λ ref, heap !! ref) refs).
  rewrite normalize_in_place_lookup, decide_True by set_solver.
  rewrite IH by set_solver. by destruct (heap !! a).
Qed.

(** ** Category and text filters *)

Lemma filter_intersection {A} `{EqDecision A} (P Q : A → Prop)
    `{!∀ x, Decision (P x), !∀ x, Decision (Q x)} (l k : list A) :
  (∀ x, x ∈ l → x ∈ k ↔ Q x) →
  list_intersection (filter P l) k = filter (λ x, P x ∧ Q x) l.
Proof.
  induction l as [|x l IH]; intros Hk; [done|].
  rewrite !filter_cons.
  assert (∀ y, y ∈ l → y ∈ k ↔ Q y) as Hl by (intros; apply Hk; by right).
  assert (x ∈ k ↔ Q x) as Hx by (apply Hk; by left).
  destruct (decide (P x)) as [HP|HP].
  - cbn [list_intersection]. rewrite IH by done.
    unfold decide_rel.
    destruct (list_elem_of_dec x k), (decide (P x ∧ Q x)); try done; tauto.
  - rewrite IH by done. destruct (decide (P x ∧ Q x)); try done; tauto.
Qed.

(** C2.  For every non-empty category [C] the filter holds the exact-match
    condition on the category field, whatever the query; a record
    satisfies the category filter iff its stored category is the text [C]
    itself, so no record with another category is selected, by the store
    or in the items the endpoint answers with. *)
Theorem C2_category_exact (C : str) (q : option str) :
  C ≠ [] →
  filter_dict (Some C) q !! "category" = Some (Field (Equals C)) ∧
  (∀ d : record,
     matches (filter_dict (Some C) None) d ↔ d !! "category" = Some (VStr C)) ∧
  (∀ (docs : list record) (d : record),
     d !! "category" ≠ Some (VStr C) →
     d ∉ find_matching (filter_dict (Some C) q) docs) ∧
  (∀ (limit : Z) (w w' : world) (b : body),
     list_products (Some C) q limit w = (Ok b, w') →
     ∃ items, b !! "items" = Some (Docs items) ∧
              ∀ d : record, d ∈ items → d !! "category" = Some (VStr C)).
Proof.
  intros HC. destruct C as [|c cs]; [done|].
  assert (∀ d : record, matches (filter_dict (Some (c :: cs)) q) d →
                        d !! "category" = Some (VStr (c :: cs))) as Hsound.
  { intros d Hd. apply matches_category.
    destruct q as [[|x xs]|]; try done.
    rewrite filter_dict_both in Hd. by apply matches_both in Hd as [? _]. }
  split; [|split; [|split]].
  - destruct q as [[|x xs]|]; by simplify_map_eq.
  - intros d. apply matches_category.
  - intros docs d Hd [Hm _]%list_elem_of_filter. by apply Hd, Hsound.
  - intros limit w w' b (d & _ & ->)%list_products_Ok.
    eexists. split; [done|]. intros r (r0 & -> & Hr0)%list_elem_of_fmap.
    apply subseteq_take, list_elem_of_filter in Hr0 as [Hm _].
    rewrite normalize_other by done. by apply Hsound.
Qed.

(** The theorem at the category ["Electronics"]: the same word in lower
    case is another category. *)
Lemma C2_category_exact_witness :
  filter_dict (Some (py "Electronics")) None !! "category"
    = Some (Field (Equals (py "Electronics"))) ∧
  ¬ matches (filter_dict (Some (py "Electronics")) None)
      (dict [ ("category", VStr (py "electronics")) ]).
Proof.
  destruct (C2_category_exact (py "Electronics") None) as (Hf & Hm & _); [done|].
  split; [exact Hf|]. intros H%Hm. vm_compute in H. discriminate.
Defined.

(** ** What the normaliser does to a record *)

(** C4.  A record that holds a store-native identifier under ["_id"] loses
    that key and gains the key ["id"] holding the identifier's string form;
    every other field keeps its value, at each position of the list. *)
Theorem C4_native_id_rewritten (d : record) (o : ObjectId) :
  d !! "_id" = Some (VOid o) →
  normalize d !! "_id" = None ∧
  normalize d !! "id" = Some (VStr (oid_str o)) ∧
  (∀ k : string, k ≠ "_id" → k ≠ "id" → normalize d !! k = d !! k) ∧
  (∀ (docs : list record) (i : nat),
     docs !! i = Some d →
     normalize_all docs !! i = Some (<["id" := VStr (oid_str o)]> (delete "_id" d))).
Proof.
  intros Hid. assert (normalize d = <["id" := VStr (oid_str o)]> (delete "_id" d)) as Hn.
  { unfold normalize. by rewrite Hid. }
  split; [|split; [|split]].
  - rewrite Hn. by simplify_map_eq.
  - rewrite Hn. by simplify_map_eq.
  - intros k. apply normalize_other.
  - intros docs i Hi. unfold normalize_all. by rewrite list_lookup_fmap, Hi, <- Hn.
Qed.

(** The theorem at a record whose identifier is the number 255. *)
Lemma C4_native_id_rewritten_witness :
  let d : record := dict [ ("_id", VOid (mkObjectId 255)); ("title", VStr (py "Lamp")) ] in
  normalize d !! "_id" = None ∧
  normalize d !! "id" = Some (VStr (py "0000000000000000000000ff")) ∧
  normalize d !! "title" = Some (VStr (py "Lamp")).
Proof.
  cbv zeta.
  destruct (C4_native_id_rewritten
              (dict [ ("_id", VOid (mkObjectId 255)); ("title", VStr (py "Lamp")) ])
              (mkObjectId 255)) as (H1 & H2 & H3 & _); [reflexivity|].
  split; [exact H1|]. split; [exact H2|]. by rewrite H3.
Defined.

(** C5.  Normalising a list of records twice gives the same list as
    normalising it once: after one pass no record holds a store-native
    identifier under ["_id"], so the second pass changes nothing.  The same
    holds of the loop run in place on shared objects. *)
Theorem C5_normalize_idempotent (docs : list record) :
  normalize_all (normalize_all docs) = normalize_all docs ∧
  Forall (λ d : record, ∀ o, d !! "_id" ≠ Some (VOid o)) (normalize_all docs) ∧
  (∀ (refs : list nat) (heap : gmap nat record),
     deref (normalize_in_place refs (normalize_in_place refs heap)) refs
     = deref (normalize_in_place refs heap) refs).
Proof.
  assert (∀ l : list record, normalize_all (normalize_all l) = normalize_all l) as Hidem.
  { intros l. unfold normalize_all. rewrite <- list_fmap_compose.
    apply list_fmap_ext. intros _ d _. apply normalize_twice. }
  split; [done|]. split.
  - apply Forall_fmap, Forall_true. intros d o. apply normalize_not_native.
  - intros refs heap. by rewrite !normalize_in_place_all, Hidem.
Qed.

(** C10.  A record without ["_id"], or whose ["_id"] is not a store-native
    identifier, comes out of the normaliser as it went in: no ["id"] is
    added and the ["_id"] value stays. *)
Theorem C10_other_records_untouched (d : record) :
  (d !! "_id" = None ∨ ∃ v, d !! "_id" = Some v ∧ ∀ o, v ≠ VOid o) →
  normalize d = d ∧
  normalize d !! "id" = d !! "id" ∧
  normalize d !! "_id" = d !! "_id" ∧
  normalize_all [d] = [d].
Proof.
  intros Hd. assert (normalize d = d) as Hn.
  { apply normalize_unchanged. intros o Ho.
    destruct Hd as [Hd|(v & Hv & Hnot)]; [congruence|].
    apply (Hnot o). congruence. }
  unfold normalize_all. rewrite fmap_cons, Hn. done.
Qed.

(** The theorem at a record whose ["_id"] is a text. *)
Lemma C10_other_records_untouched_witness :
  let d : record := dict [ ("_id", VStr (py "sku-17")); ("title", VStr (py "Lamp")) ] in
  normalize d = d ∧
  normalize d !! "id" = d !! "id" ∧
  normalize d !! "_id" = d !! "_id" ∧
  normalize_all [d] = [d].
Proof.
  cbv zeta. apply C10_other_records_untouched.
  right. exists (VStr (py "sku-17")). split; [reflexivity|discriminate].
Defined.

(** ** Insertion and seeding *)

Lemma calls_succeed_next (n : nat) (d : Database) :
  calls_succeed (S n) d → next_call_succeeds d.
Proof.
  unfold calls_succeed, next_call_succeeds. intros H e rest Hf.
  rewrite Hf in H. by apply Forall_cons in H as [? _].
Qed.

Lemma calls_succeed_tail (n : nat) (d d' : Database) :
  faults d' = tail (faults d) → calls_succeed (S n) d → calls_succeed n d'.
Proof.
  unfold calls_succeed. intros ->. destruct (faults d) as [|x l]; simpl.
  - by rewrite take_nil.
  - by intros [_ ?]%Forall_cons.
Qed.

Lemma insert_one_succeeds (name : string) (doc : record) (d : Database) :
  next_call_succeeds d →
  insert_one name doc d = (Ok (mkObjectId (next_oid d)), inserted name doc d).
Proof.
  intros Hd. unfold insert_one, mbind, M_bind.
  by rewrite (driver_call_succeeds d Hd).
Qed.

Lemma create_document_succeeds (name : string) (data : record) (w : world) (d : Database) :
  db w = Some d → next_call_succeeds d →
  create_document name data w
  = (Ok (oid_str (mkObjectId (next_oid d))),
     mkWorld (Some (inserted name data d)) (environ w)).
Proof.
  intros Hw Hd. unfold create_document, on_db, mbind, M_bind. rewrite Hw.
  by rewrite (insert_one_succeeds name data d Hd).
Qed.

Lemma create_document_raises (name : string) (data : record) (w : world) (d : Database)
    (e : Exception) (rest : list (option Exception)) :
  db w = Some d → faults d = Some e :: rest →
  create_document name data w = (Raise e, mkWorld (Some (after_call d)) (environ w)).
Proof.
  intros Hw Hd. unfold create_document, on_db, insert_one, mbind, M_bind. rewrite Hw.
  by rewrite (driver_call_raises d e rest Hd).
Qed.

Lemma collection_inserted (doc : record) (d : Database) :
  collection "product" (inserted "product" doc d)
  = collection "product" d ++ [<["_id" := VOid (mkObjectId (next_oid d))]> doc].
Proof. unfold collection at 1, inserted. simpl. by rewrite lookup_insert_eq. Qed.

Lemma insert_all_spec (items : list record) (d : Database) :
  collection "product" (insert_all items d)
    = collection "product" d ++ stored (next_oid d) items ∧
  faults (insert_all items d) = drop (length items) (faults d) ∧
  next_oid (insert_all items d) = next_oid d + N.of_nat (length items).
Proof.
  revert d. induction items as [|item items IH]; intros d.
  - simpl. rewrite app_nil_r. split; [done|]. split; [done|]. lia.
  - cbn [insert_all foldl]. fold (insert_all items (inserted "product" item d)).
    destruct (IH (inserted "product" item d)) as (Hc & Hf & Hn).
    rewrite Hc, Hf, Hn, collection_inserted. cbn [stored length inserted next_oid faults].
    rewrite <- app_assoc. split; [done|]. split; [|lia].
    destruct (faults d); simpl; [by rewrite drop_nil|done].
Qed.

Lemma seed_loop (items : list record) (w : world) (d : Database) :
  db w = Some d → calls_succeed (length items) d →
  for_each items (λ item, _ ← create_document "product" item; mret ()) w
  = (Ok (), mkWorld (Some (insert_all items d)) (environ w)).
Proof.
  revert w d. induction items as [|item items IH]; intros w d Hw Hd.
  - destruct w; simpl in *. by rewrite Hw.
  - cbn [for_each length] in *. unfold mbind at 1, M_bind at 1.
    unfold mbind at 1, M_bind at 1.
    rewrite (create_document_succeeds _ _ w d Hw (calls_succeed_next _ _ Hd)).
    unfold mret at 1, M_ret at 1.
    by rewrite (IH (mkWorld (Some (inserted "product" item d)) (environ w))
                  (inserted "product" item d) eq_refl
                  (calls_succeed_tail _ d (inserted "product" item d) eq_refl Hd)).
Qed.

(** C6.  With the store at hand and its driver calls succeeding: when the
    product collection holds no record, seeding inserts the four fixed
    records, one driver call each after the count, and answers
    [{"seeded": True, "count": 4}]; when it holds a record, seeding inserts
    nothing and answers [{"seeded": False, "message": ...}]. *)
Theorem C6_seed (w : world) (d : Database) :
  db w = Some d →
  (collection "product" d = [] → calls_succeed 5 d →
   ∃ d',
     seed_products w
     = (Ok (dict [ ("seeded", Scalar (VBool true)); ("count", Scalar (VInt 4)) ]),
        mkWorld (Some d') (environ w)) ∧
     collection "product" d' = stored (next_oid d) demo_items ∧
     length (collection "product" d') = 4%nat ∧
     faults d' = drop 5 (faults d)) ∧
  (collection "product" d ≠ [] → calls_succeed 1 d →
   seed_products w
   = (Ok (dict [ ("seeded", Scalar (VBool false));
                 ("message", text (py "Products already exist")) ]),
      mkWorld (Some (after_call d)) (environ w)) ∧
   collections (after_call d) = collections d).
Proof.
  intros Hw.
  assert (next_call_succeeds d → get (E := Exception) w = (Ok w, w) ∧
          on_db (count_documents "product") w
          = (Ok (Z.of_nat (length (collection "product" d))),
             mkWorld (Some (after_call d)) (environ w))) as Hcount.
  { intros Hd. split; [done|].
    by apply (on_db_run _ w d), count_documents_succeeds. }
  split.
  - intros Hempty Hd. exists (insert_all demo_items (after_call d)).
    destruct (insert_all_spec demo_items (after_call d)) as (Hc & Hf & _).
    rewrite collection_after_call, Hempty in Hc.
    destruct Hcount as [Hget Hcount]; [by eapply calls_succeed_next|].
    split; [|split; [|split]].
    + unfold seed_products. apply try_ok.
      rewrite (bind_ok _ _ _ _ _ Hget), Hw, (bind_ok _ _ _ _ _ Hcount), Hempty.
      change (0 <? Z.of_nat (length []))%Z with false. cbv iota.
      by rewrite (bind_ok _ _ _ _ _
                    (seed_loop demo_items (mkWorld (Some (after_call d)) (environ w))
                       (after_call d) eq_refl
                       (calls_succeed_tail 4 d (after_call d) eq_refl Hd))).
    + done.
    + by rewrite Hc.
    + rewrite Hf. simpl. by destruct (faults d) as [|? [|? [|? [|? [|? ?]]]]].
  - intros Hfull Hd. split; [|done].
    destruct (Hcount (calls_succeed_next _ _ Hd)) as [Hget Hcount'].
    unfold seed_products. apply try_ok.
    rewrite (bind_ok _ _ _ _ _ Hget), Hw, (bind_ok _ _ _ _ _ Hcount').
    by destruct (collection "product" d).
Qed.

(** The theorem at the empty store, and at the store it leaves behind. *)
Lemma C6_seed_witness :
  (∃ d',
     seed_products (running empty_store)
     = (Ok (dict [ ("seeded", Scalar (VBool true)); ("count", Scalar (VInt 4)) ]),
        mkWorld (Some d') ∅) ∧
     collection "product" d' = stored 0 demo_items ∧
     length (collection "product" d') = 4%nat ∧
     faults d' = []) ∧
  (seed_products (running (insert_all demo_items empty_store))
   = (Ok (dict [ ("seeded", Scalar (VBool false));
                 ("message", text (py "Products already exist")) ]),
      running (after_call (insert_all demo_items empty_store))) ∧
   collections (after_call (insert_all demo_items empty_store))
   = collections (insert_all demo_items empty_store)).
Proof.
  split.
  - apply (C6_seed (running empty_store) empty_store eq_refl); [reflexivity|].
    apply Forall_nil_2.
  - apply (C6_seed (running (insert_all demo_items empty_store))
             (insert_all demo_items empty_store) eq_refl).
    + rewrite (proj1 (insert_all_spec demo_items empty_store)). discriminate.
    + apply Forall_nil_2.
Defined.

(** ** Searching the seeded catalogue *)

(** C7.  After seeding an empty store, listing with [q=watch] and no
    category answers with exactly one item, the record titled "Smart
    Fitness Watch": the query is found in its title, letter case aside, and
    not in its description. *)
Theorem C7_watch_after_seed :
  ∀ (name : attribute str) (first : N) (env : gmap string str),
    let w0 := mkWorld (Some (mkDatabase name ∅ first [])) env in
    ∃ (w1 w2 : world) (item : record),
      seed_products w0
      = (Ok (dict [ ("seeded", Scalar (VBool true)); ("count", Scalar (VInt 4)) ]), w1) ∧
      list_products None (Some (py "watch")) 50 w1
      = (Ok (dict [ ("items", Docs [item]) ]), w2) ∧
      item !! "title" = Some (VStr (py "Smart Fitness Watch")) ∧
      item !! "description"
      = Some (VStr (py "Track health metrics with AMOLED display and GPS.")) ∧
      item !! "id" = Some (VStr (oid_str (mkObjectId (N.succ first)))) ∧
      field_contains item "title" (py "watch") ∧
      ¬ field_contains item "description" (py "watch").
Proof.
  intros name first env w0.
  pose (d1 := insert_all demo_items (after_call (mkDatabase name ∅ first []))).
  assert (literal (py "watch")) as Hlit by by_evaluation.
  exists (mkWorld (Some d1) env), (mkWorld (Some (after_call d1)) env).
  exists (normalize (<["_id" := VOid (mkObjectId (N.succ first))]>
                       (default ∅ (demo_items !! 1%nat)))).
  split; [|split; [|split; [|split; [|split; [|split]]]]].
  - subst w0 d1. vm_compute. reflexivity.
  - subst w0 d1. vm_compute. reflexivity.
  - reflexivity.
  - reflexivity.
  - reflexivity.
  - eexists. split; [reflexivity|]. apply (regex_search_literal _ _ Hlit). by vm_compute.
  - intros (t & Ht & Hsub). injection Ht as <-.
    apply (regex_search_literal _ _ Hlit) in Hsub. by vm_compute in Hsub.
Qed.

(** ** Failures of the store *)

(** Run [test_database] step by step, leaving the response as the chain
    of assignments made to it. *)
Ltac run_test_database :=
  cbv [test_database with_local try_except mbind M_bind mret M_ret outer local zoom
       get put assign on_db name_or list_collection_names driver_call raise
       db environ db_name collections faults next_oid fst snd].

(** C8.  Creating a product answers [{"id": s}] with the string the
    insertion returned, and whenever the insertion raises an exception it
    fails with status 500 and that exception's message as detail; with the
    store at hand, the first case is met when the driver call succeeds and
    the second when it raises. *)
Theorem C8_create_product (product : record) (w : world) :
  match create_document "product" product w with
  | (Ok s, w') => create_product product w = (Ok (dict [ ("id", Scalar (VStr s)) ]), w')
  | (Raise e, w') =>
      create_product product w
      = (Raise {| status_code := 500; detail := message e |}, w')
  | (Unspecified, w') => create_product product w = (Unspecified, w')
  end ∧
  (∀ d : Database, db w = Some d →
     match faults d with
     | Some e :: _ =>
         create_product product w
         = (Raise {| status_code := 500; detail := message e |},
            mkWorld (Some (after_call d)) (environ w))
     | _ =>
         create_product product w
         = (Ok (dict [ ("id", Scalar (VStr (oid_str (mkObjectId (next_oid d))))) ]),
            mkWorld (Some (inserted "product" product d)) (environ w))
     end).
Proof.
  split.
  - unfold create_product.
    destruct (create_document "product" product w) as [[s|e|] w'] eqn:Hc.
    + apply try_ok. by rewrite (bind_ok _ _ _ _ _ Hc).
    + erewrite try_raise; [done|]. by rewrite (bind_raise _ _ _ _ _ Hc).
    + apply try_unspecified. by rewrite (bind_unspecified _ _ _ _ Hc).
  - intros d Hw. unfold create_product.
    destruct (faults d) as [|[e|] rest] eqn:Hf.
    + apply try_ok. erewrite bind_ok; [done|].
      apply create_document_succeeds; [done|]. intros ??. congruence.
    + erewrite try_raise; [done|]. erewrite bind_raise; [done|].
      by eapply create_document_raises.
    + apply try_ok. erewrite bind_ok; [done|].
      apply create_document_succeeds; [done|]. intros ??. congruence.
Qed.

(** C9.  The diagnostic endpoint always returns a mapping, whatever the
    store does: without a handle it reports the store as not initialised;
    an exception raised while reading the handle or while listing the
    collections is caught and rendered into the ["database"] entry, cut to
    its first 50 characters; otherwise the entry reports a working store. *)
Theorem C9_test_database_total (w : world) :
  ∃ (r : body) (w' : world),
    test_database w = (Ok r, w') ∧
    (db w = None →
     r !! "database"
     = Some (text (warning_sign ++ py "  Available but not initialized"))) ∧
    (∀ d e, db w = Some d → db_name d = Failing e →
     r !! "database"
     = Some (text (cross_mark ++ py " Error: " ++ take 50 (message e)))) ∧
    (∀ d e rest, db w = Some d → (∀ e', db_name d ≠ Failing e') →
     faults d = Some e :: rest →
     r !! "database"
     = Some (text (warning_sign ++ py "  Connected but Error: " ++ take 50 (message e)))) ∧
    (∀ d, db w = Some d → (∀ e', db_name d ≠ Failing e') → next_call_succeeds d →
     r !! "database" = Some (text (check_mark ++ py " Connected & Working")) ∧
     r !! "collections" = Some (Names (take 10 (map_to_list (collections d)).*1))) ∧
    (∀ e : Exception, length (slice_to 50 (message e)) ≤ 50)%nat.
Proof.
  assert (∀ e : Exception, length (slice_to 50 (message e)) ≤ 50)%nat as Hcut.
  { intros e. unfold slice_to. rewrite length_take. lia. }
  destruct w as [[[name cs o fs]|] env].
  - destruct name as [|n|e0]; destruct fs as [|[e1|] rest];
      run_test_database; (eexists _, _; split; [reflexivity|]);
      (split; [done|]);
      (split; [intros d e [= <-] [=]; subst; by simplify_map_eq|]);
      (split; [intros d e rest' [= <-] Hn [=]; subst;
               first [by destruct (Hn e0) | by simplify_map_eq]|]);
      (split; [|done]);
      intros d [= <-] Hn Hd;
      first [by destruct (Hn e0) | by destruct (Hd e1 rest) | by simplify_map_eq].
  - run_test_database. eexists _, _. split; [reflexivity|].
    split; [intros _; by simplify_map_eq|]. by repeat split.
Qed.

(** * Further properties of the handlers *)

(** ** Listing *)

Lemma same_data_refl (w : world) : same_data w w.
Proof. unfold same_data. by destruct (db w). Qed.

Lemma same_data_after_call (w : world) (d : Database) :
  db w = Some d → same_data w (mkWorld (Some (after_call d)) (environ w)).
Proof. unfold same_data. by intros ->. Qed.

Lemma filter_dict_lookup (category q : option str) (k : string) (c : clause) :
  filter_dict category q !! k = Some c →
  (k = "category" ∧ ∃ C, category = Some C ∧ C ≠ [] ∧ c = Field (Equals C)) ∨
  (k = "$or" ∧ ∃ Q, q = Some Q ∧ Q ≠ [] ∧ c = text_condition Q).
Proof.
  intros Hk.
  destruct category as [[|c0 cs]|], q as [[|x xs]|]; unfold filter_dict in Hk;
    destruct (decide (k = "category")) as [Hc|?];
    destruct (decide (k = "$or")) as [Ho|?]; simplify_map_eq;
    first [ left; split; [done|]; by eexists
          | right; split; [done|]; by eexists ].
Qed.

Lemma filter_dict_supported (category q : option str) :
  (∀ Q, q = Some Q → supported_pattern Q) → filter_supported (filter_dict category q).
Proof.
  intros Hq k c [[-> (C & _ & _ & ->)]|[-> (Q & HQ%Hq & _ & ->)]]%filter_dict_lookup.
  - split; [by_evaluation|done].
  - split; [done|]. split; [done|].
    repeat apply Forall_cons_2; [| |apply Forall_nil_2];
      apply map_Forall_singleton; (split; [by_evaluation|]); split; auto.
Qed.

Lemma find_limit_run (name : string) (f : filter_doc) (n : nat) (d : Database) :
  find_limit name f n d
  = (match faults d with
     | Some e :: _ => Raise e
     | _ => Ok (take n (find_matching f (collection name d)))
     end, after_call d).
Proof.
  unfold find_limit. destruct (faults d) as [|[e|] rest] eqn:Hf.
  - rewrite (bind_ok _ _ _ _ _ (driver_call_succeeds d ltac:(intros ??; congruence))).
    done.
  - by rewrite (bind_raise _ _ _ _ _ (driver_call_raises d e rest Hf)).
  - rewrite (bind_ok _ _ _ _ _ (driver_call_succeeds d ltac:(intros ??; congruence))).
    done.
Qed.

Lemma get_documents_run (name : string) (f : filter_doc) (limit : Z)
    (w : world) (d : Database) :
  db w = Some d → filter_supported f → (0 < limit)%Z →
  get_documents name f limit w
  = (match faults d with
     | Some e :: _ => Raise e
     | _ => Ok (take (Z.to_nat limit) (find_matching f (collection name d)))
     end, mkWorld (Some (after_call d)) (environ w)).
Proof.
  intros Hw Hf Hl. unfold get_documents. rewrite decide_True by done.
  apply (on_db_run _ w d); [done|]. apply find_limit_run.
Qed.

Lemma get_documents_cases (name : string) (f : filter_doc) (limit : Z) (w : world) :
  get_documents name f limit w = (Unspecified, w) ∨
  ∃ d, db w = Some d ∧
       get_documents name f limit w
       = (match faults d with
          | Some e :: _ => Raise e
          | _ => Ok (take (Z.to_nat limit) (find_matching f (collection name d)))
          end, mkWorld (Some (after_call d)) (environ w)).
Proof.
  destruct (decide (filter_supported f ∧ (0 < limit)%Z)) as [[Hf Hl]|Hno].
  - destruct (db w) as [d|] eqn:Hw.
    + right. exists d. split; [done|]. by apply get_documents_run.
    + left. unfold get_documents, on_db. rewrite decide_True, Hw; done.
  - left. unfold get_documents. by rewrite decide_False.
Qed.

Lemma list_products_run (category q : option str) (limit : Z) (w w' : world)
    (r : result Exception (list record)) :
  get_documents "product" (filter_dict category q) limit w = (r, w') →
  list_products category q limit w
  = (match r with
     | Ok docs => Ok (dict [ ("items", Docs (normalize_all docs)) ])
     | Raise e => Raise (mkHTTPException 500 (message e))
     | Unspecified => Unspecified
     end, w').
Proof.
  intros Hget. unfold list_products. destruct r as [docs|e|].
  - apply try_ok. by rewrite (bind_ok _ _ _ _ _ Hget).
  - erewrite try_raise; [done|]. by rewrite (bind_raise _ _ _ _ _ Hget).
  - apply try_unspecified. by rewrite (bind_unspecified _ _ _ _ Hget).
Qed.

Lemma find_matching_empty (docs : list record) : find_matching ∅ docs = docs.
Proof.
  unfold find_matching. induction docs as [|d docs IH]; [done|].
  rewrite filter_cons_True by apply map_Forall_empty. by rewrite IH.
Qed.

Lemma normalize_all_json_safe (docs : list record) : json_safe (normalize_all docs).
Proof. apply Forall_fmap, Forall_true. intros d o. apply normalize_not_native. Qed.

(** ** Category and query together *)

Lemma normalize_reads (d d' : record) (k : string) :
  k ≠ "_id" → k ≠ "id" → normalize d = normalize d' → d !! k = d' !! k.
Proof.
  intros H1 H2 Hn. by rewrite <- (normalize_other d k), <- (normalize_other d' k), Hn.
Qed.

Lemma matches_text_agree (q : str) (d d' : record) :
  d !! "title" = d' !! "title" → d !! "description" = d' !! "description" →
  matches {["$or" := text_condition q]} d → matches {["$or" := text_condition q]} d'.
Proof.
  intros Ht Hd. rewrite !matches_text, !text_condition_holds. by rewrite Ht, Hd.
Qed.

Lemma fmap_filter_intersection {A} `{EqDecision A} (f : A → A) (P Q : A → Prop)
    `{!∀ x, Decision (P x), !∀ x, Decision (Q x)} (l k : list A) :
  (∀ x, x ∈ l → f x ∈ k ↔ Q x) →
  list_intersection (f <$> filter P l) k = f <$> filter (λ x, P x ∧ Q x) l.
Proof.
  induction l as [|x l IH]; intros Hk; [done|].
  rewrite !filter_cons.
  assert (∀ y, y ∈ l → f y ∈ k ↔ Q y) as Hl by (intros; apply Hk; by right).
  assert (f x ∈ k ↔ Q x) as Hx by (apply Hk; by left).
  destruct (decide (P x)) as [HP|HP].
  - rewrite fmap_cons. cbn [list_intersection]. rewrite IH by done.
    unfold decide_rel.
    destruct (list_elem_of_dec (f x) k), (decide (P x ∧ Q x));
      rewrite ?fmap_cons; try done; tauto.
  - rewrite IH by done. destruct (decide (P x ∧ Q x)); try done; tauto.
Qed.

(** C3.  With a non-empty category [C] and a non-empty query [Q] the filter
    is made of exactly the exact-match condition on the category and the
    OR-group on title and description; a record satisfies it iff it
    satisfies both, so the records it selects from a collection are the
    intersection of those the category filter and the text filter select
    alone.  On a working store the listing answers the first [limit]
    records of that intersection, and with a limit that covers the
    collection the items of the combined listing are the intersection of
    the items of the two single listings. *)
Theorem C3_both_filters (C Q : str) :
  C ≠ [] → Q ≠ [] →
  filter_dict (Some C) (Some Q)
  = <["$or" := Or [ {["title" := Regex Q (py "i")]};
                    {["description" := Regex Q (py "i")]} ]]>
      {["category" := Field (Equals C)]} ∧
  (∀ d : record,
     matches (filter_dict (Some C) (Some Q)) d ↔
     d !! "category" = Some (VStr C) ∧ clause_holds d "$or" (text_condition Q)) ∧
  (∀ d : record,
     matches (filter_dict (Some C) (Some Q)) d ↔
     matches (filter_dict (Some C) None) d ∧ matches (filter_dict None (Some Q)) d) ∧
  (∀ docs : list record,
     find_matching (filter_dict (Some C) (Some Q)) docs =
     list_intersection (find_matching (filter_dict (Some C) None) docs)
                       (find_matching (filter_dict None (Some Q)) docs)) ∧
  (∀ (limit : Z) (w : world) (d : Database),
     db w = Some d → (0 < limit)%Z → supported_pattern Q → next_call_succeeds d →
     list_products (Some C) (Some Q) limit w
     = (Ok (dict [ ("items",
                    Docs (normalize_all
                            (take (Z.to_nat limit)
                               (list_intersection
                                  (find_matching (filter_dict (Some C) None)
                                     (collection "product" d))
                                  (find_matching (filter_dict None (Some Q))
                                     (collection "product" d)))))) ]),
        mkWorld (Some (after_call d)) (environ w)) ∧
     ((Z.of_nat (length (collection "product" d)) ≤ limit)%Z →
      ∃ both cat txt : list record,
        list_products (Some C) (Some Q) limit w
        = (Ok (dict [ ("items", Docs both) ]), mkWorld (Some (after_call d)) (environ w)) ∧
        list_products (Some C) None limit w
        = (Ok (dict [ ("items", Docs cat) ]), mkWorld (Some (after_call d)) (environ w)) ∧
        list_products None (Some Q) limit w
        = (Ok (dict [ ("items", Docs txt) ]), mkWorld (Some (after_call d)) (environ w)) ∧
        both = list_intersection cat txt)).
Proof.
  intros HC HQ. destruct C as [|c cs]; [done|]. destruct Q as [|x xs]; [done|].
  assert (∀ d : record,
     matches (filter_dict (Some (c :: cs)) (Some (x :: xs))) d ↔
     matches (filter_dict (Some (c :: cs)) None) d ∧
     matches (filter_dict None (Some (x :: xs))) d) as Hboth.
  { intros d. rewrite filter_dict_both. apply matches_both. }
  assert (∀ docs : list record,
     find_matching (filter_dict (Some (c :: cs)) (Some (x :: xs))) docs =
     list_intersection (find_matching (filter_dict (Some (c :: cs)) None) docs)
                       (find_matching (filter_dict None (Some (x :: xs))) docs)) as Hinter.
  { intros docs. unfold find_matching.
    rewrite (filter_intersection _ (matches (filter_dict None (Some (x :: xs))))).
    - apply list_filter_iff, Hboth.
    - intros d Hd. rewrite list_elem_of_filter. tauto. }
  split; [done|]. split; [|split; [done|split; [done|]]].
  { intros d. rewrite filter_dict_both, matches_both, matches_category, matches_text.
    done. }
  intros limit w d Hw Hl Hsup Hd.
  assert (∀ category q,
            (∀ Q0, q = Some Q0 → supported_pattern Q0) →
            list_products category q limit w
            = (Ok (dict [ ("items",
                           Docs (normalize_all
                                   (take (Z.to_nat limit)
                                      (find_matching (filter_dict category q)
                                         (collection "product" d))))) ]),
               mkWorld (Some (after_call d)) (environ w))) as Hrun.
  { intros category q Hq.
    rewrite (list_products_run category q limit w _ _
               (get_documents_run "product" (filter_dict category q) limit w d Hw
                  (filter_dict_supported category q Hq) Hl)).
    destruct (faults d) as [|[e|] rest] eqn:Hf; [done| |done]. by destruct (Hd e rest). }
  assert (∀ Q0, Some (x :: xs) = Some Q0 → supported_pattern Q0) as Hq
    by (by intros ? [= <-]).
  split.
  - by rewrite (Hrun (Some (c :: cs)) (Some (x :: xs)) Hq), Hinter.
  - intros Hcover.
    assert (∀ f : filter_doc,
              take (Z.to_nat limit) (find_matching f (collection "product" d))
              = find_matching f (collection "product" d)) as Hall.
    { intros f. apply take_ge. unfold find_matching.
      pose proof (length_filter (matches f) (collection "product" d)). lia. }
    eexists _, _, _.
    split; [rewrite (Hrun (Some (c :: cs)) (Some (x :: xs)) Hq), Hall; reflexivity|].
    split; [rewrite (Hrun (Some (c :: cs)) None ltac:(done)), Hall; reflexivity|].
    split; [rewrite (Hrun None (Some (x :: xs)) Hq), Hall; reflexivity|].
    unfold normalize_all, find_matching.
    rewrite (fmap_filter_intersection normalize _
               (matches (filter_dict None (Some (x :: xs))))).
    + f_equal. apply list_filter_iff, Hboth.
    + intros r Hr. rewrite list_elem_of_fmap. split.
      * intros (r' & Hn & [Hm _]%list_elem_of_filter).
        apply (matches_text_agree _ r' r); [| |exact Hm];
          symmetry; by apply normalize_reads.
      * intros Hm. exists r. split; [done|]. by apply list_elem_of_filter.
Qed.

(** The theorem at ["Wearables"] and ["watch"], on the demonstration
    records and on the seeded store. *)
Lemma C3_both_filters_witness :
  filter_dict (Some (py "Wearables")) (Some (py "watch"))
  = <["$or" := Or [ {["title" := Regex (py "watch") (py "i")]};
                    {["description" := Regex (py "watch") (py "i")]} ]]>
      {["category" := Field (Equals (py "Wearables"))]} ∧
  find_matching (filter_dict (Some (py "Wearables")) (Some (py "watch"))) demo_items =
  list_intersection (find_matching (filter_dict (Some (py "Wearables")) None) demo_items)
                    (find_matching (filter_dict None (Some (py "watch"))) demo_items) ∧
  list_products (Some (py "Wearables")) (Some (py "watch")) 50
    (running (insert_all demo_items empty_store))
  = (Ok (dict [ ("items",
                 Docs (normalize_all
                         (take (Z.to_nat 50)
                            (list_intersection
                               (find_matching (filter_dict (Some (py "Wearables")) None)
                                  (collection "product" (insert_all demo_items empty_store)))
                               (find_matching (filter_dict None (Some (py "watch")))
                                  (collection "product"
                                     (insert_all demo_items empty_store))))))) ]),
     running (after_call (insert_all demo_items empty_store))).
Proof.
  destruct (C3_both_filters (py "Wearables") (py "watch")) as (Hf & _ & _ & Hi & Hl);
    [discriminate|discriminate|].
  split; [exact Hf|]. split; [apply Hi|].
  apply (Hl 50%Z (running (insert_all demo_items empty_store))
           (insert_all demo_items empty_store) eq_refl eq_refl).
  - apply (bool_decide_unpack _). vm_compute. exact I.
  - intros e rest. discriminate.
Defined.

(** X1.  Every entry of the filter is one of the two the handler writes:
    ["category"] compared with the given text, present iff the category is
    given and not empty, and ["$or"] holding the text condition of the
    query, present iff the query is given and not empty.  The request's
    texts are only ever values, never keys or operators of the filter. *)
Theorem X1_filter_entries (category q : option str) :
  (∀ (k : string) (c : clause),
     filter_dict category q !! k = Some c →
     (k = "category" ∧ ∃ C, category = Some C ∧ C ≠ [] ∧ c = Field (Equals C)) ∨
     (k = "$or" ∧ ∃ Q, q = Some Q ∧ Q ≠ [] ∧ c = text_condition Q)) ∧
  (is_Some (filter_dict category q !! "category") ↔ truthy category = true) ∧
  (is_Some (filter_dict category q !! "$or") ↔ truthy q = true).
Proof.
  split; [|split].
  - intros k c. apply filter_dict_lookup.
  - destruct category as [[|c0 cs]|], q as [[|x xs]|]; unfold filter_dict;
      simplify_map_eq; split; first [done | by intros [? ?] | by eexists].
  - destruct category as [[|c0 cs]|], q as [[|x xs]|]; unfold filter_dict;
      simplify_map_eq; split; first [done | by intros [? ?] | by eexists].
Qed.

(** X2.  With the category and the query each absent or empty, the filter
    is the empty one: it selects every record, and a listing answers the
    first [limit] records of the collection, normalised, in stored order. *)
Theorem X2_no_filter (category q : option str) :
  truthy category = false → truthy q = false →
  filter_dict category q = ∅ ∧
  (∀ docs : list record, find_matching (filter_dict category q) docs = docs) ∧
  (∀ (limit : Z) (w : world) (d : Database),
     db w = Some d → (0 < limit)%Z → next_call_succeeds d →
     list_products category q limit w
     = (Ok (dict [ ("items",
                    Docs (normalize_all (take (Z.to_nat limit) (collection "product" d)))) ]),
        mkWorld (Some (after_call d)) (environ w))).
Proof.
  intros Hc Hq.
  assert (filter_dict category q = ∅) as Hf.
  { by destruct category as [[|c cs]|], q as [[|x xs]|]. }
  split; [done|]. split.
  - intros docs. rewrite Hf. apply find_matching_empty.
  - intros limit w d Hw Hl Hd.
    assert (filter_supported (filter_dict category q)) as Hs.
    { rewrite Hf. apply map_Forall_empty. }
    rewrite (list_products_run category q limit w _ _
               (get_documents_run "product" (filter_dict category q) limit w d Hw Hs Hl)).
    rewrite Hf, find_matching_empty.
    destruct (faults d) as [|[e|] rest] eqn:Hfaults; [done| |done].
    by destruct (Hd e rest).
Qed.

(** The theorem at an empty category text and no query, on the seeded
    store with a limit of two. *)
Lemma X2_no_filter_witness :
  find_matching (filter_dict (Some []) None) demo_items = demo_items ∧
  list_products (Some []) None 2 (running (insert_all demo_items empty_store))
  = (Ok (dict [ ("items",
                 Docs (normalize_all
                         (take 2 (collection "product"
                                    (insert_all demo_items empty_store))))) ]),
     running (after_call (insert_all demo_items empty_store))).
Proof.
  destruct (X2_no_filter (Some []) None eq_refl eq_refl) as (_ & Hall & Hlist).
  split; [apply Hall|].
  apply (Hlist 2%Z (running (insert_all demo_items empty_store))
           (insert_all demo_items empty_store) eq_refl eq_refl).
  intros e rest. discriminate.
Defined.

(** X3.  With the store at hand, a positive limit and a query within the
    pattern fragment, a listing makes one driver call: if that call raises,
    the listing fails with status 500 and the exception's message as
    detail; otherwise it answers the first [limit] records the filter
    selects, normalised, in stored order. *)
Theorem X3_list_products_outcome (category q : option str) (limit : Z)
    (w : world) (d : Database) :
  db w = Some d → (0 < limit)%Z → (∀ Q, q = Some Q → supported_pattern Q) →
  list_products category q limit w
  = (match faults d with
     | Some e :: _ => Raise (mkHTTPException 500 (message e))
     | _ => Ok (dict [ ("items",
                        Docs (normalize_all
                                (take (Z.to_nat limit)
                                   (find_matching (filter_dict category q)
                                      (collection "product" d))))) ])
     end, mkWorld (Some (after_call d)) (environ w)).
Proof.
  intros Hw Hl Hq.
  rewrite (list_products_run category q limit w _ _
             (get_documents_run "product" _ limit w d Hw
                (filter_dict_supported category q Hq) Hl)).
  by destruct (faults d) as [|[e|] rest].
Qed.

(** The theorem at a store whose next driver call raises. *)
Lemma X3_list_products_outcome_witness :
  list_products None (Some (py "watch")) 50
    (running (mkDatabase Absent ∅ 0 [Some (mkException (py "timed out"))]))
  = (Raise (mkHTTPException 500 (py "timed out")),
     running (mkDatabase Absent ∅ 0 [])).
Proof.
  apply (X3_list_products_outcome None (Some (py "watch")) 50
           (running (mkDatabase Absent ∅ 0 [Some (mkException (py "timed out"))]))
           (mkDatabase Absent ∅ 0 [Some (mkException (py "timed out"))])
           eq_refl eq_refl).
  intros Q [= <-]. apply (bool_decide_unpack _). vm_compute. exact I.
Defined.

(** X4.  With the store at hand, a positive limit and a query within the
    pattern fragment, a listing makes exactly one driver call and leaves
    the store's data as they were; its outcome is then either the status
    500 with the message of the exception that call raised, or a body
    whose only entry is ["items"]: at most [limit] records and no more than
    the collection holds, none of them holding a store-native identifier
    under ["_id"]. *)
Theorem X4_list_products_reads_only (category q : option str) (limit : Z)
    (w : world) (d : Database) :
  db w = Some d → (0 < limit)%Z → (∀ Q, q = Some Q → supported_pattern Q) →
  (list_products category q limit w).2 = mkWorld (Some (after_call d)) (environ w) ∧
  same_data w (list_products category q limit w).2 ∧
  match (list_products category q limit w).1 with
  | Ok b =>
      next_call_succeeds d ∧
      ∃ items, b = dict [ ("items", Docs items) ] ∧
               (Z.of_nat (length items) ≤ limit)%Z ∧
               (length items ≤ length (collection "product" d))%nat ∧
               json_safe items
  | Raise e =>
      ∃ e0 rest, faults d = Some e0 :: rest ∧ e = mkHTTPException 500 (message e0)
  | Unspecified => False
  end.
Proof.
  intros Hw Hl Hq.
  rewrite (list_products_run category q limit w _ _
             (get_documents_run "product" (filter_dict category q) limit w d Hw
                (filter_dict_supported category q Hq) Hl)).
  cbn [fst snd]. split; [done|]. split; [by apply same_data_after_call|].
  assert (∀ docs : list record,
            (Z.of_nat (length (normalize_all (take (Z.to_nat limit)
               (find_matching (filter_dict category q) docs)))) ≤ limit)%Z ∧
            (length (normalize_all (take (Z.to_nat limit)
               (find_matching (filter_dict category q) docs))) ≤ length docs)%nat) as Hlen.
  { intros docs. unfold normalize_all, find_matching.
    rewrite length_fmap, length_take.
    pose proof (length_filter (matches (filter_dict category q)) docs). lia. }
  destruct (faults d) as [|[e|] rest] eqn:Hf.
  - split; [intros ??; congruence|]. eexists. split; [done|].
    split; [apply Hlen|]. split; [apply Hlen|apply normalize_all_json_safe].
  - by exists e, rest.
  - split; [intros ??; congruence|]. eexists. split; [done|].
    split; [apply Hlen|]. split; [apply Hlen|apply normalize_all_json_safe].
Qed.

(** The theorem at the seeded store, with a limit of two and one more
    driver outcome scripted. *)
Lemma X4_list_products_reads_only_witness :
  (list_products None None 2
     (running (mkDatabase Absent (collections (insert_all demo_items empty_store)) 4
                 [None; Some (mkException (py "late"))]))).2
  = running (mkDatabase Absent (collections (insert_all demo_items empty_store)) 4
               [Some (mkException (py "late"))]) ∧
  match (list_products None None 2
           (running (mkDatabase Absent (collections (insert_all demo_items empty_store)) 4
                       [None; Some (mkException (py "late"))]))).1 with
  | Ok b =>
      ∃ items, b = dict [ ("items", Docs items) ] ∧ (Z.of_nat (length items) ≤ 2)%Z ∧
               json_safe items
  | _ => False
  end.
Proof.
  destruct (X4_list_products_reads_only None None 2
              (running (mkDatabase Absent (collections (insert_all demo_items empty_store)) 4
                          [None; Some (mkException (py "late"))]))
              (mkDatabase Absent (collections (insert_all demo_items empty_store)) 4
                 [None; Some (mkException (py "late"))])
              eq_refl eq_refl ltac:(discriminate)) as (Hstate & _ & Hout).
  split; [exact Hstate|].
  destruct (list_products None None 2 _).1 as [b|e|]; [|by destruct Hout as (? & ? & ? & ?)|done].
  destruct Hout as (_ & items & Hb & Hn & _ & Hs). by exists items.
Defined.

(** ** Creating *)

Lemma create_product_run (product : record) (w : world) (d : Database) :
  db w = Some d →
  create_product product w
  = match faults d with
    | Some e :: _ =>
        (Raise (mkHTTPException 500 (message e)),
         mkWorld (Some (after_call d)) (environ w))
    | _ =>
        (Ok (dict [ ("id", text (oid_str (mkObjectId (next_oid d)))) ]),
         mkWorld (Some (inserted "product" product d)) (environ w))
    end.
Proof.
  intros Hw. unfold create_product. destruct (faults d) as [|[e|] rest] eqn:Hf.
  - apply try_ok. erewrite bind_ok; [done|].
    apply create_document_succeeds; [done|]. intros ??. congruence.
  - erewrite try_raise; [done|]. erewrite bind_raise; [done|].
    by eapply create_document_raises.
  - apply try_ok. erewrite bind_ok; [done|].
    apply create_document_succeeds; [done|]. intros ??. congruence.
Qed.

Lemma collection_inserted_other (name : string) (doc : record) (d : Database) :
  name ≠ "product" →
  collection name (inserted "product" doc d) = collection name d.
Proof. intros Hn. unfold collection, inserted. simpl. by rewrite lookup_insert_ne. Qed.

Lemma normalize_stored (doc : record) (o : ObjectId) :
  normalize (<["_id" := VOid o]> doc) = <["id" := VStr (oid_str o)]> (delete "_id" doc).
Proof. unfold normalize. by rewrite lookup_insert_eq, delete_insert_eq. Qed.

(** X5.  With the store at hand, creating a product makes exactly one
    driver call.  If it succeeds, the product collection grows by exactly
    the new document, filed under the identifier answered, and every other
    collection is as before; if it raises, creation fails with status 500
    and that exception's message, and the data are as before. *)
Theorem X5_create_product_effect (product : record) (w : world) (d : Database) :
  db w = Some d →
  match create_product product w with
  | (Ok b, w') =>
      ∃ d', db w' = Some d' ∧ environ w' = environ w ∧
            faults d' = tail (faults d) ∧
            (∀ e rest, faults d ≠ Some e :: rest) ∧
            b = dict [ ("id", text (oid_str (mkObjectId (next_oid d)))) ] ∧
            collection "product" d'
            = collection "product" d
              ++ [<["_id" := VOid (mkObjectId (next_oid d))]> product] ∧
            (∀ name, name ≠ "product" → collections d' !! name = collections d !! name) ∧
            next_oid d' = N.succ (next_oid d) ∧
            db_name d' = db_name d
  | (Raise e, w') =>
      ∃ d' e0 rest,
        db w' = Some d' ∧ environ w' = environ w ∧
        faults d = Some e0 :: rest ∧ faults d' = rest ∧
        e = mkHTTPException 500 (message e0) ∧
        collections d' = collections d ∧ next_oid d' = next_oid d ∧
        db_name d' = db_name d
  | (Unspecified, _) => False
  end.
Proof.
  intros Hw. rewrite (create_product_run product w d Hw).
  destruct (faults d) as [|[e|] rest] eqn:Hf.
  - exists (inserted "product" product d). cbn [inserted faults next_oid db_name db environ].
    rewrite Hf. repeat split; try done.
    + apply collection_inserted.
    + intros name Hn. by apply lookup_insert_ne.
  - exists (after_call d), e, rest. cbn [after_call faults db environ].
    rewrite Hf. by repeat split.
  - exists (inserted "product" product d). cbn [inserted faults next_oid db_name db environ].
    rewrite Hf. repeat split; try done.
    + apply collection_inserted.
    + intros name Hn. by apply lookup_insert_ne.
Qed.

(** The theorem at an empty store with a failure scripted for the call
    after next: the creation succeeds and spends one entry of the script. *)
Lemma X5_create_product_effect_witness :
  match create_product (dict [ ("title", VStr (py "Lamp")) ])
          (running (mkDatabase Absent ∅ 7 [None; Some (mkException (py "late"))])) with
  | (Ok b, w') =>
      ∃ d', db w' = Some d' ∧ environ w' = ∅ ∧
            faults d' = [Some (mkException (py "late"))] ∧
            (∀ e rest, [None; Some (mkException (py "late"))] ≠ Some e :: rest) ∧
            b = dict [ ("id", text (oid_str (mkObjectId 7))) ] ∧
            collection "product" d'
            = [] ++ [<["_id" := VOid (mkObjectId 7)]> (dict [ ("title", VStr (py "Lamp")) ])] ∧
            (∀ name, name ≠ "product" →
               collections d' !! name = (∅ : gmap string (list record)) !! name) ∧
            next_oid d' = N.succ 7 ∧
            db_name d' = Absent
  | (Raise e, w') =>
      ∃ d' e0 rest,
        db w' = Some d' ∧ environ w' = ∅ ∧
        [None; Some (mkException (py "late"))] = Some e0 :: rest ∧ faults d' = rest ∧
        e = mkHTTPException 500 (message e0) ∧
        collections d' = ∅ ∧ next_oid d' = 7 ∧ db_name d' = Absent
  | (Unspecified, _) => False
  end.
Proof.
  exact (X5_create_product_effect (dict [ ("title", VStr (py "Lamp")) ])
           (running (mkDatabase Absent ∅ 7 [None; Some (mkException (py "late"))]))
           (mkDatabase Absent ∅ 7 [None; Some (mkException (py "late"))]) eq_refl).
Defined.

(** X6.  A product created on a working store is listed: an unfiltered
    listing whose limit exceeds the collection answers the earlier
    records, normalised, followed by the new product with the key ["id"]
    holding the very identifier the creation answered. *)
Theorem X6_created_product_is_listed (product : record) (limit : Z)
    (w : world) (d : Database) :
  db w = Some d → calls_succeed 2 d →
  (Z.of_nat (length (collection "product" d)) < limit)%Z →
  ∃ (s : str) (w1 w2 : world),
    create_product product w = (Ok (dict [ ("id", text s) ]), w1) ∧
    list_products None None limit w1
    = (Ok (dict [ ("items",
                   Docs (normalize_all (collection "product" d)
                         ++ [<["id" := VStr s]> (delete "_id" product)])) ]), w2) ∧
    same_data w1 w2.
Proof.
  intros Hw Hd Hlimit.
  pose proof (calls_succeed_next _ _ Hd) as Hd1.
  assert (next_call_succeeds (inserted "product" product d)) as Hd2.
  { eapply calls_succeed_next, calls_succeed_tail; [|exact Hd]. done. }
  exists (oid_str (mkObjectId (next_oid d))),
    (mkWorld (Some (inserted "product" product d)) (environ w)),
    (mkWorld (Some (after_call (inserted "product" product d))) (environ w)).
  split; [|split].
  - rewrite (create_product_run product w d Hw).
    destruct (faults d) as [|[e|] rest] eqn:Hf; [done| |done]. by destruct (Hd1 e rest).
  - rewrite (list_products_run None None limit _ _ _
               (get_documents_run "product" (filter_dict None None) limit
                  (mkWorld (Some (inserted "product" product d)) (environ w))
                  (inserted "product" product d) eq_refl
                  (filter_dict_supported None None ltac:(done)) ltac:(lia))).
    destruct (faults (inserted "product" product d)) as [|[e|] rest] eqn:Hf;
      [|by destruct (Hd2 e rest)|];
      change (filter_dict None None) with (∅ : filter_doc);
      rewrite find_matching_empty, collection_inserted, take_ge
        by (rewrite length_app; simpl; lia);
      unfold normalize_all; by rewrite fmap_app, fmap_cons, normalize_stored.
  - by apply (same_data_after_call (mkWorld (Some (inserted "product" product d)) (environ w))).
Qed.

(** The theorem at the seeded store, with the default limit. *)
Lemma X6_created_product_is_listed_witness :
  ∃ (s : str) (w1 w2 : world),
    create_product (dict [ ("title", VStr (py "Lamp")) ])
      (running (insert_all demo_items empty_store))
    = (Ok (dict [ ("id", text s) ]), w1) ∧
    list_products None None 50 w1
    = (Ok (dict [ ("items",
                   Docs (normalize_all
                           (collection "product" (insert_all demo_items empty_store))
                         ++ [<["id" := VStr s]>
                               (delete "_id" (dict [ ("title", VStr (py "Lamp")) ]))])) ]),
       w2) ∧
    same_data w1 w2.
Proof.
  apply (X6_created_product_is_listed (dict [ ("title", VStr (py "Lamp")) ]) 50
           (running (insert_all demo_items empty_store))
           (insert_all demo_items empty_store) eq_refl).
  - apply Forall_nil_2.
  - rewrite (proj1 (insert_all_spec demo_items empty_store)). reflexivity.
Defined.

(** ** Seeding when the store fails *)

Lemma seed_count (w : world) (d : Database) :
  db w = Some d →
  (get (E := Exception) ≫= λ w0 : world,
     match db w0 with
     | Some _ => on_db (count_documents "product")
     | None => mret 0%Z
     end) w
  = (match faults d with
     | Some e :: _ => Raise e
     | _ => Ok (Z.of_nat (length (collection "product" d)))
     end, mkWorld (Some (after_call d)) (environ w)).
Proof.
  intros Hw. rewrite (bind_ok get _ w w w eq_refl), Hw.
  apply (on_db_run _ w d); [done|]. unfold count_documents.
  destruct (faults d) as [|[e|] rest] eqn:Hf.
  - by rewrite (bind_ok _ _ _ _ _ (driver_call_succeeds d ltac:(intros ??; congruence))).
  - by rewrite (bind_raise _ _ _ _ _ (driver_call_raises d e rest Hf)).
  - by rewrite (bind_ok _ _ _ _ _ (driver_call_succeeds d ltac:(intros ??; congruence))).
Qed.

(** Seeding when the count raises, and when it finds a record. *)
Lemma seed_products_guard (w : world) (d : Database) :
  db w = Some d →
  (∀ e rest, faults d = Some e :: rest →
     seed_products w
     = (Raise (mkHTTPException 500 (message e)),
        mkWorld (Some (after_call d)) (environ w))) ∧
  (next_call_succeeds d → collection "product" d ≠ [] →
     seed_products w
     = (Ok (dict [ ("seeded", Scalar (VBool false));
                   ("message", text (py "Products already exist")) ]),
        mkWorld (Some (after_call d)) (environ w))).
Proof.
  intros Hw. pose proof (seed_count w d Hw) as Hcount. split.
  - intros e rest Hf. rewrite Hf in Hcount. unfold seed_products.
    erewrite try_raise; [done|].
    rewrite <- (bind_assoc_run _ _ _ w). by rewrite (bind_raise _ _ _ _ _ Hcount).
  - intros Hd Hfull. unfold seed_products. apply try_ok.
    rewrite <- (bind_assoc_run _ _ _ w).
    destruct (faults d) as [|[e|] rest] eqn:Hf; [|by destruct (Hd e rest)|];
      rewrite (bind_ok _ _ _ _ _ Hcount); by destruct (collection "product" d).
Qed.

Lemma seed_products_from_empty (w : world) (d : Database) :
  db w = Some d → next_call_succeeds d → collection "product" d = [] →
  seed_products w
  = try_except
      (for_each demo_items (λ item, _ ← create_document "product" item; mret ());;
       mret (dict [ ("seeded", Scalar (VBool true));
                    ("count", Scalar (VInt (Z.of_nat (length demo_items)))) ]))
      (λ e, raise (mkHTTPException 500 (message e)))
      (mkWorld (Some (after_call d)) (environ w)).
Proof.
  intros Hw Hd Hempty. pose proof (seed_count w d Hw) as Hcount.
  assert (∀ {A} (m : M world Exception A) h s r s',
            m s = (r, s') →
            try_except (E' := HTTPException) m h s
            = match r with
              | Ok a => (Ok a, s')
              | Raise e => h e s'
              | Unspecified => (Unspecified, s')
              end) as Htry.
  { intros A m h s r s' Hm. unfold try_except. by rewrite Hm. }
  unfold seed_products.
  destruct (faults d) as [|[e|] rest] eqn:Hf; [|by destruct (Hd e rest)|];
    unfold try_except at 1 2; rewrite <- (bind_assoc_run _ _ _ w);
    rewrite (bind_ok _ _ _ _ _ Hcount), Hempty; done.
Qed.

(** The loop of [seed_products] when the insertion after [pre] raises:
    the records of [pre] are in, the rest is not attempted. *)
Lemma seed_loop_fails (pre post : list record) (item : record) (w : world)
    (d : Database) (e : Exception) :
  db w = Some d → calls_succeed (length pre) d →
  faults d !! length pre = Some (Some e) →
  for_each (pre ++ item :: post) (λ item, _ ← create_document "product" item; mret ()) w
  = (Raise e, mkWorld (Some (after_call (insert_all pre d))) (environ w)).
Proof.
  revert w d. induction pre as [|a pre IH]; intros w d Hw Hd He.
  - destruct (faults d) as [|o rest] eqn:Hf; [done|]. injection He as ->.
    cbn [app for_each insert_all foldl].
    erewrite bind_raise; [done|]. erewrite bind_raise; [done|].
    by eapply create_document_raises.
  - cbn [app for_each length insert_all foldl] in *.
    fold (insert_all pre (inserted "product" a d)).
    erewrite bind_ok; cycle 1.
    { erewrite bind_ok; [done|].
      apply create_document_succeeds; [done|]. by eapply calls_succeed_next. }
    apply (IH (mkWorld (Some (inserted "product" a d)) (environ w))
              (inserted "product" a d) eq_refl).
    + by eapply calls_succeed_tail.
    + cbn [inserted faults]. by destruct (faults d).
Qed.

(** Seeding an empty collection when the insertion of the record at
    position [k] raises. *)
Lemma seed_products_fails_at (w : world) (d : Database) (k : nat) (e : Exception) :
  db w = Some d → collection "product" d = [] → (k < 4)%nat →
  calls_succeed (S k) d → faults d !! S k = Some (Some e) →
  seed_products w
  = (Raise (mkHTTPException 500 (message e)),
     mkWorld (Some (after_call (insert_all (take k demo_items) (after_call d))))
       (environ w)).
Proof.
  intros Hw Hempty Hk Hd He.
  rewrite (seed_products_from_empty w d Hw (calls_succeed_next _ _ Hd) Hempty).
  destruct (demo_items !! k) as [item|] eqn:Hitem; cycle 1.
  { apply lookup_ge_None in Hitem. simpl in Hitem. lia. }
  erewrite try_raise; [done|]. erewrite bind_raise; [done|].
  rewrite <- (take_drop_middle demo_items k item Hitem) at 1.
  assert (length (take k demo_items) = k) as Hlen.
  { rewrite length_take. simpl. lia. }
  apply (seed_loop_fails _ _ _ (mkWorld (Some (after_call d)) (environ w))
           (after_call d) e eq_refl).
  - rewrite Hlen. by eapply calls_succeed_tail.
  - rewrite Hlen. cbn [after_call faults]. by destruct (faults d).
Qed.

Lemma stored_length (first : N) (items : list record) :
  length (stored first items) = length items.
Proof.
  revert first. induction items as [|x l IH]; intros first; [done|].
  cbn [stored length]. by rewrite IH.
Qed.

Lemma tail_drop {A} (l : list A) : tail l = drop 1 l.
Proof. by destruct l. Qed.

(** X7.  Seeding is not atomic.  If, on an empty product collection, the
    count and the first [k] insertions succeed and the next insertion
    raises, seeding fails with status 500 and that exception's message, the
    [k] records already inserted stay in the collection, and no later
    record is attempted. *)
Theorem X7_seed_not_atomic (w : world) (d : Database) (k : nat) (e : Exception) :
  db w = Some d → collection "product" d = [] → (k < 4)%nat →
  calls_succeed (S k) d → faults d !! S k = Some (Some e) →
  ∃ d',
    seed_products w
    = (Raise (mkHTTPException 500 (message e)), mkWorld (Some d') (environ w)) ∧
    collection "product" d' = stored (next_oid d) (take k demo_items) ∧
    length (collection "product" d') = k ∧
    faults d' = drop (S (S k)) (faults d).
Proof.
  intros Hw Hempty Hk Hd He. eexists. split; [by apply seed_products_fails_at|].
  destruct (insert_all_spec (take k demo_items) (after_call d)) as (Hc & Hf & _).
  assert (length (take k demo_items) = k) as Hlen.
  { rewrite length_take. simpl. lia. }
  rewrite collection_after_call, Hempty in Hc. cbn [after_call next_oid app] in Hc.
  rewrite collection_after_call. split; [exact Hc|]. split.
  - by rewrite Hc, stored_length.
  - cbn [after_call faults] in *. rewrite Hf, Hlen, !tail_drop, !drop_drop.
    f_equal. lia.
Qed.

(** The theorem at an empty store whose third insertion raises. *)
Lemma X7_seed_not_atomic_witness :
  ∃ d',
    seed_products
      (running (mkDatabase Absent ∅ 0 [None; None; None; Some (mkException (py "disk full"))]))
    = (Raise (mkHTTPException 500 (py "disk full")), mkWorld (Some d') ∅) ∧
    collection "product" d' = stored 0 (take 2 demo_items) ∧
    length (collection "product" d') = 2%nat ∧
    faults d' = [].
Proof.
  apply (X7_seed_not_atomic
           (running (mkDatabase Absent ∅ 0
                       [None; None; None; Some (mkException (py "disk full"))]))
           (mkDatabase Absent ∅ 0 [None; None; None; Some (mkException (py "disk full"))])
           2 (mkException (py "disk full")) eq_refl).
  - reflexivity.
  - lia.
  - repeat constructor.
  - reflexivity.
Defined.

Lemma calls_succeed_le (n m : nat) (d : Database) :
  (n ≤ m)%nat → calls_succeed m d → calls_succeed n d.
Proof.
  unfold calls_succeed. intros Hle Hm.
  rewrite <- (Nat.min_l n m Hle), <- take_take. by apply Forall_take.
Qed.

Lemma calls_succeed_after (n : nat) (d d' : Database) :
  calls_succeed (S n) d → faults d' = drop n (faults d) → next_call_succeeds d'.
Proof.
  unfold calls_succeed. intros Hd Hf e rest Hd'.
  assert (faults d !! n = Some (Some e)) as Hn.
  { rewrite <- (Nat.add_0_r n), <- lookup_drop, <- Hf, Hd'. done. }
  assert (take (S n) (faults d) !! n = Some (Some e)) as Ht.
  { rewrite lookup_take_lt by lia. done. }
  by pose proof (Forall_lookup_1 _ _ _ _ Hd Ht).
Qed.

(** The store a failed seeding leaves behind. *)
Lemma seed_failed_state (d : Database) (k : nat) :
  collection "product" d = [] → (k < 4)%nat →
  collection "product" (after_call (insert_all (take k demo_items) (after_call d)))
    = stored (next_oid d) (take k demo_items) ∧
  length (collection "product"
            (after_call (insert_all (take k demo_items) (after_call d)))) = k ∧
  faults (after_call (insert_all (take k demo_items) (after_call d)))
    = drop (S (S k)) (faults d).
Proof.
  intros Hempty Hk.
  destruct (insert_all_spec (take k demo_items) (after_call d)) as (Hc & Hf & _).
  assert (length (take k demo_items) = k) as Hlen.
  { rewrite length_take. simpl. lia. }
  rewrite collection_after_call, Hempty in Hc. cbn [after_call next_oid app] in Hc.
  rewrite collection_after_call. split; [exact Hc|]. split.
  - by rewrite Hc, stored_length.
  - cbn [after_call faults] in *. rewrite Hf, Hlen, !tail_drop, !drop_drop.
    f_equal. lia.
Qed.

(** X8.  A seeding that failed midway is never completed by seeding
    again: once the count and [k >= 1] insertions succeeded and the next
    insertion raised, a second call finds the collection non-empty,
    answers [{"seeded": False, ...}] and leaves the [k] records as the
    whole catalogue. *)
Theorem X8_partial_seed_stays (w : world) (d : Database) (k : nat)
    (e : Exception) (rest : list (option Exception)) :
  db w = Some d → collection "product" d = [] → (0 < k < 4)%nat →
  faults d = replicate (S k) None ++ Some e :: rest →
  (∀ e' r, rest ≠ Some e' :: r) →
  ∃ (w1 w2 : world) (d2 : Database),
    seed_products w = (Raise (mkHTTPException 500 (message e)), w1) ∧
    seed_products w1
    = (Ok (dict [ ("seeded", Scalar (VBool false));
                  ("message", text (py "Products already exist")) ]), w2) ∧
    db w2 = Some d2 ∧
    collection "product" d2 = stored (next_oid d) (take k demo_items) ∧
    length (collection "product" d2) = k.
Proof.
  intros Hw Hempty [Hk0 Hk] Hf Hrest.
  pose (d1 := after_call (insert_all (take k demo_items) (after_call d))).
  destruct (seed_failed_state d k Hempty Hk) as (Hc & Hlen & Hf1). fold d1 in Hc, Hlen, Hf1.
  assert (faults d1 = rest) as Hrest1.
  { rewrite Hf1, Hf. replace (S (S k)) with (S k + 1)%nat by lia.
    rewrite <- drop_drop, drop_app_length' by by rewrite length_replicate. done. }
  exists (mkWorld (Some d1) (environ w)), (mkWorld (Some (after_call d1)) (environ w)),
    (after_call d1).
  split; [|split; [|split; [done|by rewrite !collection_after_call]]].
  - apply seed_products_fails_at; try done.
    + unfold calls_succeed. rewrite Hf, take_app_length' by by rewrite length_replicate.
      by apply Forall_replicate.
    + rewrite Hf. apply list_lookup_middle. by rewrite length_replicate.
  - apply (seed_products_guard (mkWorld (Some d1) (environ w)) d1 eq_refl).
    + intros e' r. rewrite Hrest1. apply Hrest.
    + intros Hnil. rewrite Hnil in Hlen. simpl in Hlen. lia.
Qed.

(** The theorem at an empty store whose third insertion raises. *)
Lemma X8_partial_seed_stays_witness :
  ∃ (w1 w2 : world) (d2 : Database),
    seed_products
      (running (mkDatabase Absent ∅ 0 [None; None; None; Some (mkException (py "disk full"))]))
    = (Raise (mkHTTPException 500 (py "disk full")), w1) ∧
    seed_products w1
    = (Ok (dict [ ("seeded", Scalar (VBool false));
                  ("message", text (py "Products already exist")) ]), w2) ∧
    db w2 = Some d2 ∧
    collection "product" d2 = stored 0 (take 2 demo_items) ∧
    length (collection "product" d2) = 2%nat.
Proof.
  apply (X8_partial_seed_stays
           (running (mkDatabase Absent ∅ 0
                       [None; None; None; Some (mkException (py "disk full"))]))
           (mkDatabase Absent ∅ 0 [None; None; None; Some (mkException (py "disk full"))])
           2 (mkException (py "disk full")) [] eq_refl).
  - reflexivity.
  - lia.
  - reflexivity.
  - intros e' r. discriminate.
Defined.

(** X9.  Seeding never adds to a catalogue that holds a record, and never
    inserts when the count fails: if the count raises, seeding fails with
    status 500 and that exception's message; if it finds a record, seeding
    answers [{"seeded": False, ...}]; in both cases the data are as
    before. *)
Theorem X9_seed_guard (w : world) (d : Database) :
  db w = Some d →
  (∀ e rest, faults d = Some e :: rest →
     seed_products w
     = (Raise (mkHTTPException 500 (message e)),
        mkWorld (Some (after_call d)) (environ w))) ∧
  (collection "product" d ≠ [] →
     same_data w (seed_products w).2 ∧
     match (seed_products w).1 with
     | Ok b => b !! "seeded" = Some (Scalar (VBool false)) ∧ b !! "count" = None
     | Raise e => status_code e = 500%Z
     | Unspecified => False
     end).
Proof.
  intros Hw. destruct (seed_products_guard w d Hw) as [Hraise Hfull].
  split; [exact Hraise|]. intros Hne.
  destruct (faults d) as [|[e|] rest] eqn:Hf.
  - rewrite Hfull; [|intros ??; congruence|done].
    split; [by apply same_data_after_call|]. by split.
  - rewrite (Hraise e rest eq_refl). split; [by apply same_data_after_call|done].
  - rewrite Hfull; [|intros ??; congruence|done].
    split; [by apply same_data_after_call|]. by split.
Qed.

(** The theorem at the seeded store. *)
Lemma X9_seed_guard_witness :
  same_data (running (insert_all demo_items empty_store))
    (seed_products (running (insert_all demo_items empty_store))).2 ∧
  match (seed_products (running (insert_all demo_items empty_store))).1 with
  | Ok b => b !! "seeded" = Some (Scalar (VBool false)) ∧ b !! "count" = None
  | Raise e => status_code e = 500%Z
  | Unspecified => False
  end.
Proof.
  apply (X9_seed_guard (running (insert_all demo_items empty_store))
           (insert_all demo_items empty_store) eq_refl).
  rewrite (proj1 (insert_all_spec demo_items empty_store)). discriminate.
Defined.

(** X10.  Seeding twice seeds once: on an empty product collection of a
    working store the first call inserts the four records and the second
    answers [{"seeded": False, ...}], the collection holding the same four
    records afterwards. *)
Theorem X10_seed_twice (w : world) (d : Database) :
  db w = Some d → collection "product" d = [] → calls_succeed 6 d →
  ∃ (w1 w2 : world) (d2 : Database),
    seed_products w
    = (Ok (dict [ ("seeded", Scalar (VBool true)); ("count", Scalar (VInt 4)) ]), w1) ∧
    seed_products w1
    = (Ok (dict [ ("seeded", Scalar (VBool false));
                  ("message", text (py "Products already exist")) ]), w2) ∧
    db w2 = Some d2 ∧
    collection "product" d2 = stored (next_oid d) demo_items.
Proof.
  intros Hw Hempty Hd.
  pose (d1 := insert_all demo_items (after_call d)).
  destruct (insert_all_spec demo_items (after_call d)) as (Hc & Hf & _). fold d1 in Hc, Hf.
  rewrite collection_after_call, Hempty in Hc. cbn [after_call next_oid app] in Hc.
  assert (calls_succeed 4 (after_call d)) as Hd4.
  { apply (calls_succeed_tail 4 d); [done|]. apply (calls_succeed_le 5 6); [lia|done]. }
  exists (mkWorld (Some d1) (environ w)), (mkWorld (Some (after_call d1)) (environ w)),
    (after_call d1).
  split; [|split; [|split; [done|by rewrite collection_after_call]]].
  - rewrite (seed_products_from_empty w d Hw (calls_succeed_next _ _ Hd) Hempty).
    apply try_ok.
    by rewrite (bind_ok _ _ _ _ _
                  (seed_loop demo_items (mkWorld (Some (after_call d)) (environ w))
                     (after_call d) eq_refl Hd4)).
  - apply (seed_products_guard (mkWorld (Some d1) (environ w)) d1 eq_refl).
    + apply (calls_succeed_after 5 d); [done|].
      rewrite Hf. cbn [after_call faults length demo_items].
      by rewrite tail_drop, drop_drop.
    + by rewrite Hc.
Qed.

(** The theorem at the empty store. *)
Lemma X10_seed_twice_witness :
  ∃ (w1 w2 : world) (d2 : Database),
    seed_products (running empty_store)
    = (Ok (dict [ ("seeded", Scalar (VBool true)); ("count", Scalar (VInt 4)) ]), w1) ∧
    seed_products w1
    = (Ok (dict [ ("seeded", Scalar (VBool false));
                  ("message", text (py "Products already exist")) ]), w2) ∧
    db w2 = Some d2 ∧
    collection "product" d2 = stored 0 demo_items.
Proof.
  apply (X10_seed_twice (running empty_store) empty_store eq_refl);
    [reflexivity|apply Forall_nil_2].
Defined.

(** ** The diagnostic mapping *)

(** Read an entry of a response left as a chain of assignments. *)
Ltac lookup_response :=
  repeat (rewrite lookup_insert_ne by done);
  first [rewrite lookup_insert_eq; reflexivity | reflexivity].

(** X11.  The diagnostic endpoint always answers a mapping with exactly
    its six keys and leaves the store's data as they were.  Its
    ["database_url"] and ["database_name"] entries tell only whether the
    environment variables are set and not empty: what the handler first
    writes there from the handle, the database's name included, is always
    overwritten. *)
Theorem X11_diagnostics_entries (w : world) :
  ∃ (r : body) (w' : world),
    test_database w = (Ok r, w') ∧
    same_data w w' ∧
    dom r = ({[ "backend"; "database"; "database_url"; "database_name";
                "connection_status"; "collections" ]} : gset string) ∧
    r !! "backend" = Some (text (check_mark ++ py " Running")) ∧
    r !! "database_url"
    = Some (text (if getenv_truthy "DATABASE_URL" w
                  then check_mark ++ py " Set" else cross_mark ++ py " Not Set")) ∧
    r !! "database_name"
    = Some (text (if getenv_truthy "DATABASE_NAME" w
                  then check_mark ++ py " Set" else cross_mark ++ py " Not Set")).
Proof.
  destruct w as [[[name cs o fs]|] env];
    [destruct name as [|n|e0]; destruct fs as [|[e1|] rest]|];
    run_test_database; (eexists _, _; split; [reflexivity|]);
    (split; [by repeat split|]);
    (split; [rewrite !dom_insert_L; unfold dict; rewrite dom_list_to_map_L;
             cbn [fmap list_fmap fst list_to_set foldr]; set_solver|]);
    (split; [lookup_response|]); split; lookup_response.
Qed.

Lemma collection_names_exist (cs : gmap string (list record)) (n : nat) (name : string) :
  name ∈ take n (map_to_list cs).*1 → is_Some (cs !! name).
Proof.
  intros Hin%subseteq_take. apply list_elem_of_fmap in Hin as ([k docs] & -> & Hin).
  apply elem_of_map_to_list in Hin. by exists docs.
Qed.

(** X12.  The diagnostic mapping lists at most ten collections, each a
    collection of the store, and none when the store was not reached.  Its
    ["connection_status"] is ["Connected"] exactly when the handle is
    present and reading its name did not raise, also when listing the
    collections then raised, and ["Not Connected"] otherwise. *)
Theorem X12_diagnostics_connection (w : world) :
  ∃ (r : body) (w' : world) (names : list string),
    test_database w = (Ok r, w') ∧
    r !! "collections" = Some (Names names) ∧
    (length names ≤ 10)%nat ∧
    (∀ name, name ∈ names → ∃ d, db w = Some d ∧ is_Some (collections d !! name)) ∧
    (names ≠ [] →
     ∃ d, db w = Some d ∧ (∀ e, db_name d ≠ Failing e) ∧ next_call_succeeds d) ∧
    (r !! "connection_status" = Some (text (py "Connected")) ↔
     ∃ d, db w = Some d ∧ ∀ e, db_name d ≠ Failing e) ∧
    (r !! "connection_status" ≠ Some (text (py "Connected")) →
     r !! "connection_status" = Some (text (py "Not Connected"))).
Proof.
  assert (∀ (cs : gmap string (list record)),
            length (take 10 (map_to_list cs).*1) ≤ 10)%nat as Hten.
  { intros cs. rewrite length_take. lia. }
  destruct w as [[[name cs o fs]|] env];
    [destruct name as [|n|e0]; destruct fs as [|[e1|] rest]|];
    run_test_database; (eexists _, _, _; split; [reflexivity|]);
    (split; [lookup_response|]).
  all: split; [first [apply Hten | cbn [length]; lia]|].
  all: split;
    [intros name' Hin;
     first [ by apply elem_of_nil in Hin
           | eexists; split; [reflexivity|]; by eapply collection_names_exist ]|].
  all: split;
    [intros Hne;
     first [ done
           | eexists; split; [reflexivity|]; split; [done|];
             intros e' r'; cbn [faults]; congruence ]|].
  all: split;
    [split;
     [intros Hc;
      first [ eexists; split; [reflexivity|]; done
            | exfalso; revert Hc; repeat (rewrite lookup_insert_ne by done);
              first [rewrite lookup_insert_eq | idtac]; vm_compute; congruence ]
     |intros (d & [= <-] & Hn);
      first [ lookup_response | by destruct (Hn e0) ]]
    |intros Hc;
     first [ lookup_response
           | exfalso; apply Hc; lookup_response ]].
Qed.

(** ** Letter case of the query *)

Lemma text_condition_literal (d : record) (k : string) (Q : str) :
  literal Q →
  clause_holds d k (text_condition Q) ↔
  field_contains d "title" Q ∨ field_contains d "description" Q.
Proof.
  intros Hlit. rewrite text_condition_holds. unfold field_contains.
  by setoid_rewrite (regex_search_literal Q _ Hlit).
Qed.

(** A record passes the filter iff it passes each condition given. *)
Lemma matches_filter_dict (category q : option str) (d : record) :
  matches (filter_dict category q) d ↔
  (∀ C, category = Some C → C ≠ [] → d !! "category" = Some (VStr C)) ∧
  (∀ Q, q = Some Q → Q ≠ [] → clause_holds d "$or" (text_condition Q)).
Proof.
  assert (∀ (c' : option str) (P : str → Prop),
            (∀ C, c' = Some C → C ≠ [] → P C) ↔
            match c' with Some (x :: xs) => P (x :: xs) | _ => True end) as Hopt.
  { intros [[|x xs]|] P; split; try done.
    - by intros _ ? [= <-].
    - intros H. by apply H.
    - by intros H ? [= <-]. }
  rewrite (Hopt category (λ C, d !! "category" = Some (VStr C))).
  rewrite (Hopt q (λ Q, clause_holds d "$or" (text_condition Q))).
  destruct category as [[|c cs]|], q as [[|x xs]|];
    try (split; [done|intros _; apply map_Forall_empty]).
  - rewrite <- matches_text. unfold filter_dict. rewrite insert_empty. tauto.
  - rewrite <- matches_category. unfold filter_dict. rewrite insert_empty. tauto.
  - rewrite filter_dict_both, matches_both, matches_category, matches_text. tauto.
  - rewrite <- matches_category. unfold filter_dict. rewrite insert_empty. tauto.
  - rewrite <- matches_text. unfold filter_dict. rewrite insert_empty. tauto.
Qed.

Lemma matches_filter_dict_query (category : option str) (Q : str) (d : record) :
  matches (filter_dict category (Some Q)) d ↔
  (∀ C, category = Some C → C ≠ [] → d !! "category" = Some (VStr C)) ∧
  (Q ≠ [] → clause_holds d "$or" (text_condition Q)).
Proof.
  rewrite matches_filter_dict. split; intros [H1 H2]; (split; [exact H1|]).
  - intros Hne. by apply (H2 Q).
  - intros Q0 HQ0 Hne. injection HQ0 as HQ0. subst Q0. by apply H2.
Qed.

(** X13.  The letter case of the query does not matter: two queries
    free of pattern metacharacters that differ only in the case of their
    letters build filters that select the same records, with or without a
    category. *)
Theorem X13_query_case (category : option str) (Q Q' : str) :
  literal Q → literal Q' → lower <$> Q = lower <$> Q' →
  (∀ d : record,
     matches (filter_dict category (Some Q)) d ↔
     matches (filter_dict category (Some Q')) d) ∧
  (∀ docs : list record,
     find_matching (filter_dict category (Some Q)) docs
     = find_matching (filter_dict category (Some Q')) docs).
Proof.
  intros HQ HQ' Hcase.
  assert (∀ d : record,
            matches (filter_dict category (Some Q)) d ↔
            matches (filter_dict category (Some Q')) d) as Hsame.
  { intros d. rewrite !matches_filter_dict_query.
    assert (Q = [] ↔ Q' = []) as Hnil.
    { apply (f_equal length) in Hcase. rewrite !length_fmap in Hcase.
      clear -Hcase. destruct Q, Q'; simpl in Hcase; try discriminate Hcase; by split. }
    assert (clause_holds d "$or" (text_condition Q) ↔
            clause_holds d "$or" (text_condition Q')) as Htext.
    { rewrite !text_condition_literal by done.
      unfold field_contains, ci_substring. by rewrite Hcase. }
    split; intros [Hc Hq]; (split; [exact Hc|]); intros Hne.
    - apply Htext, Hq. by rewrite Hnil.
    - apply Htext, Hq. by rewrite <- Hnil. }
  split; [exact Hsame|]. intros docs. by apply list_filter_iff.
Qed.

(** The theorem at the queries ["WATCH"] and ["watch"], on the
    demonstration records. *)
Lemma X13_query_case_witness :
  find_matching (filter_dict None (Some (py "WATCH"))) demo_items
  = find_matching (filter_dict None (Some (py "watch"))) demo_items.
Proof.
  apply (X13_query_case None (py "WATCH") (py "watch")).
  - apply (bool_decide_unpack _). vm_compute. exact I.
  - apply (bool_decide_unpack _). vm_compute. exact I.
  - reflexivity.
Defined.

(** ** What the filter reads *)

(** X14.  The filter reads three fields only.  Records that agree on
    ["category"], ["title"] and ["description"] are selected alike,
    whatever their other fields hold; and under a non-empty query a record
    whose title and description are both missing, or not texts, is never
    selected. *)
Theorem X14_filter_reads_three_fields (category q : option str) :
  (∀ d d' : record,
     d !! "category" = d' !! "category" →
     d !! "title" = d' !! "title" →
     d !! "description" = d' !! "description" →
     matches (filter_dict category q) d ↔ matches (filter_dict category q) d') ∧
  (∀ (Q : str) (d : record),
     q = Some Q → Q ≠ [] →
     (∀ t, d !! "title" ≠ Some (VStr t)) →
     (∀ t, d !! "description" ≠ Some (VStr t)) →
     ¬ matches (filter_dict category q) d).
Proof.
  split.
  - intros d d' Hc Ht Hd. rewrite !matches_filter_dict.
    setoid_rewrite text_condition_holds. by rewrite Hc, Ht, Hd.
  - intros Q d -> HQ Ht Hd [_ Hm]%matches_filter_dict_query.
    apply Hm, text_condition_holds in HQ as [(t & Hl & _)|(t & Hl & _)].
    + by apply (Ht t).
    + by apply (Hd t).
Qed.

(** ** The loop on shared objects *)

(** X15.  Run in place on a heap of dict objects, the normalising loop
    touches only the objects the list refers to: each of them ends up
    normalised, once, however often the list refers to it; every other
    object is as before; and the list then reads as the normalised
    records. *)
Theorem X15_loop_in_place (docs : list nat) (heap : gmap nat record) :
  (∀ ref, ref ∈ docs → normalize_in_place docs heap !! ref = normalize <$> heap !! ref) ∧
  (∀ ref, ref ∉ docs → normalize_in_place docs heap !! ref = heap !! ref) ∧
  dom (normalize_in_place docs heap) = dom heap ∧
  deref (normalize_in_place docs heap) docs = normalize <$> deref heap docs.
Proof.
  split; [|split; [|split]].
  - intros ref Hin. by rewrite normalize_in_place_lookup, decide_True.
  - intros ref Hin. by rewrite normalize_in_place_lookup, decide_False.
  - apply set_eq. intros ref. rewrite !elem_of_dom, normalize_in_place_lookup.
    destruct (decide (ref ∈ docs)); [|done]. by rewrite fmap_is_Some.
  - apply normalize_in_place_all.
Qed.
